(** * list-github-repos: the repository lister of [index.js]

    A shallow embedding of [GitHubRepoLister] (index.js): the chunked
    batch runner [processConcurrently], the commit enricher
    [getRepoCommitInfo], the listing [getUserRepos], [processRepositories]
    and [run], followed by the properties of the specification that
    concern them.

    Conventions of the embedding.
    - A JavaScript number used as an index or a count is a [Z].
    - A promise is represented by the way it eventually settles
      ([outcome]): fulfilled, rejected, or never settled.
    - Console output is a list of [console_line]; sequential [async] code
      lives in the writer-and-error monad [IO].
    - The Octokit client and the CSV writer are external: they are records
      of answers ([Octokit], [CsvWriter]), one answer per request.
    - A [for] loop whose termination depends on its arguments is run with
      fuel; [Running] is the status of a loop that has not finished. *)

From stdpp Require Import base list strings sorting pretty.
From Stdlib Require Import ZArith Lia Ascii.

Local Open Scope Z_scope.

(** ** JavaScript runtime *)

Module JS.

(** [Array.prototype.slice]: a negative bound counts from the end, every
  bound is clamped to [0 .. length]. *)
Definition slice_bound (len k : Z) : Z :=
if bool_decide (k < 0) then Z.max (len + k) 0 else Z.min k len.

Definition slice {A} (l : list A) (start stop : Z) : list A :=
let len := Z.of_nat (length l) in
let s := slice_bound len start in
let e := slice_bound len stop in
take (Z.to_nat (e - s)) (drop (Z.to_nat s) l).

(** [String.prototype.slice], on the characters of the string. *)
Definition str_slice (s : string) (start stop : Z) : string :=
String.string_of_list_ascii (slice (String.list_ascii_of_string s) start stop).

(** [s.replace(/[:.]/g, '-')]. *)
Definition is_colon_or_dot (c : ascii) : bool :=
bool_decide (c = ":"%char) || bool_decide (c = "."%char).

Fixpoint replace_colon_dot (s : string) : string :=
match s with
| EmptyString => EmptyString
| String c s' =>
    String (if is_colon_or_dot c then "-"%char else c) (replace_colon_dot s')
end.

(** A JavaScript string is held as the bytes of its UTF-8 form. ASCII
  text is text whose bytes are all below 128. *)
Fixpoint is_ascii_text (s : string) : bool :=
match s with
| EmptyString => true
| String c s' => bool_decide (nat_of_ascii c < 128)%nat && is_ascii_text s'
end.

(** Lowercasing of ASCII text: the letters A-Z move to a-z, every other
  character stays. This is what [String.prototype.toLowerCase] does on
  ASCII text; what it does on other text is decided by the Unicode tables
  of the engine, see [toLowerCase] below. *)
Definition lower_ascii (c : ascii) : ascii :=
let n := nat_of_ascii c in
if bool_decide (65 <= n <= 90)%nat then ascii_of_nat (n + 32) else c.

Fixpoint ascii_toLowerCase (s : string) : string :=
match s with
| EmptyString => EmptyString
| String c s' => String (lower_ascii c) (ascii_toLowerCase s')
end.

(** Truthiness of a possibly missing string: [undefined], [null] and the
  empty string are falsy. *)
Definition truthy (s : option string) : option string :=
match s with
| Some EmptyString => None
| _ => s
end.

(** Errors carry a message and, for HTTP errors, a status. *)
Record Error := mkError { message : string; status : option Z }.

(** The error of reading a property of [null] or [undefined]; it has no
    status. The wording of the message is the one of the engine of
    Node.js. *)
Definition TypeError (what : string) : Error :=
  mkError ("Cannot read properties of " +:+ what) None.

(** A value that is a string, [null] or [undefined]. *)
Inductive nullable :=
| Null
| Undefined
| Text (s : string).

(** How a promise settles. *)
Inductive outcome (A : Type) :=
| Fulfilled (value : A)
| Rejected (reason : Error)
| Pending.
Arguments Fulfilled {A} value.
Arguments Rejected {A} reason.
Arguments Pending {A}.

Inductive console_line :=
| Log (text : string)
| Warn (text : string)
| Err (text : string).

(** Sequential [async] code: what it printed, and how it settled. *)
Record IO (A : Type) := mkIO { console : list console_line; settled : outcome A }.
Arguments mkIO {A} console settled.
Arguments console {A} _.
Arguments settled {A} _.

Definition ret {A} (a : A) : IO A := mkIO [] (Fulfilled a).

Definition bind {A B} (m : IO A) (f : A → IO B) : IO B :=
match settled m with
| Fulfilled a => let r := f a in mkIO (console m ++ console r) (settled r)
| Rejected e => mkIO (console m) (Rejected e)
| Pending => mkIO (console m) Pending
end.

Definition throw {A} (e : Error) : IO A := mkIO [] (Rejected e).

(** [try { m } catch (error) { h error }] *)
Definition try_catch {A} (m : IO A) (h : Error → IO A) : IO A :=
match settled m with
| Rejected e => let r := h e in mkIO (console m ++ console r) (settled r)
| _ => m
end.

(** [await p] for an external promise [p]. *)
Definition await {A} (p : outcome A) : IO A := mkIO [] p.

Definition console_log (s : string) : IO unit := mkIO [Log s] (Fulfilled tt).
Definition console_warn (s : string) : IO unit := mkIO [Warn s] (Fulfilled tt).
Definition console_error (s : string) : IO unit := mkIO [Err s] (Fulfilled tt).

(** [Promise.all]: the values array has one slot per promise; a promise
  that fulfils writes its own slot, whenever it does so; the first
  rejection rejects the whole; the result is delivered once every slot
  is written. [order] lists the promises in the order in which they
  settle. *)
Fixpoint settle_all {A} (promises : list (outcome A)) (order : list nat)
  (values : list (option A)) : outcome (list A) :=
match order with
| [] =>
    match mapM id values with
    | Some vs => Fulfilled vs
    | None => Pending
    end
| k :: order' =>
    match promises !! k with
    | Some (Fulfilled v) => settle_all promises order' (<[k := Some v]> values)
    | Some (Rejected e) => Rejected e
    | Some Pending | None => settle_all promises order' values
    end
end.

Definition Promise_all {A} (promises : list (outcome A)) (order : list nat)
  : outcome (list A) :=
settle_all promises order (replicate (length promises) None).

End JS.

Import JS.

#[global] Instance IO_ret : MRet IO := @ret.
#[global] Instance IO_bind : MBind IO := λ A B f m, bind m f.

(** ** Constants of index.js *)

Definition FETCH_COMMIT_COUNT : bool := false.
Definition CONCURRENCY_LIMIT : Z := 10.

(** ** The batch runner: [processConcurrently] *)

(** What can be observed of a run: the chunk taken at each loop iteration,
    console lines, and for every call of the processor the moment it is
    made and the moment its promise settles. *)
Inductive event (A : Type) :=
| EChunk (i : Z) (batch : list A)
| EConsole (line : console_line)
| EInvoke (globalIndex : Z)
| ESettle (globalIndex : Z).
Arguments EChunk {A} i batch.
Arguments EConsole {A} line.
Arguments EInvoke {A} globalIndex.
Arguments ESettle {A} globalIndex.

Inductive run_status (B : Type) :=
| Returned (results : list B)
| Threw (reason : Error)
| Stuck
| Running.
Arguments Returned {B} results.
Arguments Threw {B} reason.
Arguments Stuck {B}.
Arguments Running {B}.

Record run_of (A B : Type) := mkRun { run_status_of : run_status B; trace : list (event A) }.
Arguments mkRun {A B} _ _.
Arguments run_status_of {A B} _.
Arguments trace {A B} _.

(** The order in which the promises of one chunk settle. Each call takes
    the time [delay globalIndex]; calls of one chunk start together, so
    they settle by increasing delay. *)
Definition settles_no_later (delay : Z → nat) (i : Z) (a b : nat) : Prop :=
  (delay (i + Z.of_nat a)%Z ≤ delay (i + Z.of_nat b)%Z)%nat.

#[global] Instance settles_no_later_dec delay i : RelDecision (settles_no_later delay i) :=
  λ a b, decide (delay (i + Z.of_nat a)%Z ≤ delay (i + Z.of_nat b)%Z)%nat.

Definition completion_order (delay : Z → nat) (i : Z) (n : nat) : list nat :=
  merge_sort (settles_no_later delay i) (seq 0 n).

Section processConcurrently.
Context {A B : Type}.
Variable item_name : A → string.
Variable items : list A.
Variable processor : A → Z → IO B.
Variable concurrency : Z.
Variable delay : Z → nat.

Definition progress_line (globalIndex : Z) (item : A) : console_line :=
  Log ("Processing " +:+ pretty (globalIndex + 1) +:+ "/" +:+
       pretty (Z.of_nat (length items)) +:+ ": " +:+ item_name item).

(** [batch.map(async (item, index) => ...)]: the callbacks run one after
    the other, each logs and calls the processor. *)
Definition launch_events (i : Z) (batch : list A) : list (event A) :=
  mjoin (imap (λ index item,
           let globalIndex := i + Z.of_nat index in
           [EConsole (progress_line globalIndex item); EInvoke globalIndex]) batch).

Definition batchPromises (i : Z) (batch : list A) : list (IO B) :=
  imap (λ index item, processor item (i + Z.of_nat index)) batch.

Definition settle_event (i : Z) (promises : list (IO B)) (k : nat) : list (event A) :=
  match promises !! k with
  | Some p =>
      match settled p with
      | Pending => EConsole <$> console p
      | _ => (EConsole <$> console p) ++ [ESettle (i + Z.of_nat k)]
      end
  | None => []
  end.

Definition settle_events (i : Z) (promises : list (IO B)) (order : list nat)
    : list (event A) :=
  mjoin (settle_event i promises <$> order).

Definition chunk_events (i : Z) (batch : list A) : list (event A) :=
  EChunk i batch :: launch_events i batch ++
    settle_events i (batchPromises i batch) (completion_order delay i (length batch)).

(** [for (let i = 0; i < items.length; i += concurrency) { ... }] *)
Fixpoint loop (fuel : nat) (i : Z) (results : list B) : run_of A B :=
  match fuel with
  | O => mkRun Running []
  | S fuel' =>
      if bool_decide (i < Z.of_nat (length items)) then
        let batch := slice items i (i + concurrency) in
        let order := completion_order delay i (length batch) in
        match Promise_all (settled <$> batchPromises i batch) order with
        | Fulfilled batchResults =>
            let r := loop fuel' (i + concurrency) (results ++ batchResults) in
            mkRun (run_status_of r) (chunk_events i batch ++ trace r)
        | Rejected e => mkRun (Threw e) (chunk_events i batch)
        | Pending => mkRun Stuck (chunk_events i batch)
        end
      else mkRun (Returned results) []
  end.

Definition processConcurrently (fuel : nat) : run_of A B := loop fuel 0 [].

End processConcurrently.

(** The chunks a run has taken, in order. *)
Definition chunks_of {A} (tr : list (event A)) : list (list A) :=
  omap (λ e, match e with EChunk _ batch => Some batch | _ => None end) tr.

(** Counting over a trace: the sum of the weights of its events. *)
Definition tally {A} (w : event A → Z) (tr : list (event A)) : Z :=
  foldr (λ e n, w e + n) 0 tr.

Definition invoke_step {A} (e : event A) : Z :=
  match e with EInvoke _ => 1 | _ => 0 end.
Definition settle_step {A} (e : event A) : Z :=
  match e with ESettle _ => 1 | _ => 0 end.
Definition chunk_step {A} (e : event A) : Z :=
  match e with EChunk _ _ => 1 | _ => 0 end.

(** The number of processor calls made and not yet settled: a counter
    that goes up when the processor is called and down when the promise of
    the call settles. *)
Definition in_flight_step {A} (e : event A) : Z :=
  match e with
  | EInvoke _ => 1
  | ESettle _ => -1
  | _ => 0
  end.

Definition in_flight {A} (tr : list (event A)) : Z := tally in_flight_step tr.

(** At no moment of the trace are more than [C] calls in flight. *)
Definition never_exceeds {A} (C : Z) (tr : list (event A)) : Prop :=
  ∀ n : nat, in_flight (take n tr) ≤ C.

(** A chunk is taken only when no call is in flight, and has at most [C]
    items. *)
Definition chunk_barrier {A} (C : Z) (tr : list (event A)) : Prop :=
  ∀ (n : nat) i batch, tr !! n = Some (EChunk i batch) →
    in_flight (take n tr) = 0 ∧ Z.of_nat (length batch) ≤ C.

(** The place of a call in a given order of settling, and delays that
    make the calls of the chunk starting at [i] settle in that order. *)
Definition position (order : list nat) (a : nat) : nat :=
  default 0%nat (fst <$> list_find (λ k, k = a) order).

Definition delay_of_order (i : Z) (order : list nat) (globalIndex : Z) : nat :=
  position order (Z.to_nat (globalIndex - i)).

(** Every call of the processor fulfils: the call for [items[i]] with
    [outs[i]]. *)
Definition all_fulfilled {A B} (processor : A → Z → IO B) (items : list A) (outs : list B)
    : Prop :=
  imap (λ index item, settled (processor item (Z.of_nat index))) items = Fulfilled <$> outs.

(** The loop of [processConcurrently] without the processor: the chunks
    it slices off when no call fails. *)
Fixpoint chunks_from {A} (items : list A) (concurrency : Z) (fuel : nat) (i : Z)
    : list (list A) :=
  match fuel with
  | O => []
  | S fuel' =>
      if bool_decide (i < Z.of_nat (length items))
      then slice items i (i + concurrency)
             :: chunks_from items concurrency fuel' (i + concurrency)
      else []
  end.

Definition console_of {A} (tr : list (event A)) : list console_line :=
  omap (λ e, match e with EConsole l => Some l | _ => None end) tr.

(** A finished run as the promise of the [async] function: its console
    output and the way it settles. A loop that never ends is a promise
    that never settles. *)
Definition promise_of_run {A B} (r : run_of A B) : IO (list B) :=
  mkIO (console_of (trace r))
       match run_status_of r with
       | Returned results => Fulfilled results
       | Threw e => Rejected e
       | Stuck | Running => Pending
       end.

(** ** Data of the GitHub API, as far as index.js reads it *)

Record Response (A : Type) := mkResponse { data : A }.
Arguments mkResponse {A} data.
Arguments data {A} _.

Module User.
Record t := mk { login : string }.
End User.

Module Repo.
Record parent_t := mkParent { parent_full_name : string }.
Record t := mk {
  name : string;
  full_name : string;
  owner : User.t;
  private : bool;
  archived : bool;
  fork : bool;
  parent : option parent_t;
  description : option string;
  html_url : string;
  stargazers_count : Z;
  forks_count : Z;
  language : option string;
  created_at : string;
  updated_at : string;
  size : Z;
  default_branch : string
}.
End Repo.

(** A commit as [getRepoCommitInfo] reads it. In the answers of GitHub
    the committer of a commit may be [null], and the [date] of a committer
    may be absent. *)
Module Commit.
Record git_user := mkGitUser { date : option string }.
Record git_commit := mkGitCommit { committer : option git_user }.
Record t := mk { commit : git_commit }.
End Commit.

(** The two listing requests of [getUserRepos], with their parameters. *)
Inductive ListRequest :=
| listForAuthenticatedUser (visibility affiliation sort : string) (per_page : Z)
| listForUser (username type : string) (per_page : Z).

(** The client: the answer of the remote service to each request. *)
Record Octokit := mkOctokit {
  users_getAuthenticated : outcome (Response User.t);
  repos_get : string → string → outcome (Response Repo.t);
  repos_listCommits : string → string → string → Z → outcome (Response (list Commit.t));
  paginate_repos : ListRequest → outcome (list Repo.t);
  paginate_listCommits : string → string → string → Z → outcome (list Commit.t)
}.

(** ** The commit enricher: [getRepoCommitInfo] *)

Module CommitInfo.
Record t := mk { commitCount : Z; lastCommitDate : nullable }.
End CommitInfo.

(** [commits.data[0].commit.committer.date]: reading a property of
    [undefined] or of [null] throws; a property that is absent reads as
    [undefined]. *)
Definition read_date (committer : Commit.git_user) : nullable :=
  match Commit.date committer with
  | Some date => Text date
  | None => Undefined
  end.

Definition committer_date (commits : list Commit.t) : IO nullable :=
  match commits !! 0%nat with
  | None => throw (TypeError "undefined (reading 'commit')")
  | Some first =>
      match Commit.committer (Commit.commit first) with
      | None => throw (TypeError "null (reading 'date')")
      | Some committer => mret (read_date committer)
      end
  end.

Definition getRepoCommitInfo_with (fetch_commit_count : bool)
    (octokit : Octokit) (owner repo : string) : IO CommitInfo.t :=
  try_catch
    (repoInfo ← await (repos_get octokit owner repo);
     let defaultBranch := Repo.default_branch (data repoInfo) in
     commits ← await (repos_listCommits octokit owner repo defaultBranch 1);
     allCommits ← (if fetch_commit_count
                   then await (paginate_listCommits octokit owner repo defaultBranch 100)
                   else mret []);
     lastCommitDate ← (if bool_decide (Z.of_nat (length (data commits)) > 0)
                       then committer_date (data commits)
                       else mret Null);
     mret {| CommitInfo.commitCount :=
               if fetch_commit_count then Z.of_nat (length allCommits) else -1;
             CommitInfo.lastCommitDate := lastCommitDate |})
    (λ error,
       console_warn ("Could not fetch commit info for " +:+ owner +:+ "/" +:+ repo +:+ ": "
                     +:+ message error);;
       mret {| CommitInfo.commitCount := 0; CommitInfo.lastCommitDate := Null |}).

Definition getRepoCommitInfo : Octokit → string → string → IO CommitInfo.t :=
  getRepoCommitInfo_with FETCH_COMMIT_COUNT.

(** ** The records of the report, and dates *)

Module Report.
Record t := mk {
  name : string;
  fullName : string;
  private : bool;
  archived : bool;
  fork : bool;
  forkedFrom : string;
  description : string;
  url : string;
  stars : Z;
  forks : Z;
  language : string;
  createdAt : string;
  updatedAt : string;
  commitCount : Z;
  lastCommitDate : nullable;
  size : Z
}.
End Report.

(** A date by its UTC components: month 1-12, day 1-31, hours 0-23,
    minutes and seconds 0-59, milliseconds 0-999. *)
Module Date.
Record t := mk {
  year : Z; month : Z; day : Z;
  hours : Z; minutes : Z; seconds : Z; milliseconds : Z
}.
End Date.

(** ** Tactics for the lines of the console *)

Ltac line_printed :=
  repeat first [apply list_elem_of_here | apply list_elem_of_further].

Ltac line_not_printed :=
  let H := fresh "Hin" in
  intros H; simpl in H;
  repeat (apply elem_of_cons in H as [H|H]; [discriminate|]);
  by apply elem_of_nil in H.

Ltac line_not_printed_in H :=
  vm_compute in H;
  repeat (apply elem_of_cons in H as [H|H]; [discriminate|]);
  by apply elem_of_nil in H.

(** ** The engine *)

(** From here on the development has a parameter: what
    [String.prototype.toLowerCase] does to text that is not ASCII. It
    lowercases by the Unicode case mappings, which are tables of the
    engine and no part of the program. *)
Section engine.
Variable unicode_toLowerCase : string → string.

(** [String.prototype.toLowerCase]. *)
Definition toLowerCase (s : string) : string :=
  if is_ascii_text s then ascii_toLowerCase s else unicode_toLowerCase s.

(** ** The listing: [getUserRepos] *)

Definition isOwnRepos (authenticatedUser : Response User.t) (username : string) : bool :=
  bool_decide (toLowerCase (User.login (data authenticatedUser)) = toLowerCase username).

Definition listing_request (own : bool) (username : string) : ListRequest :=
  if own then listForAuthenticatedUser "all" "owner" "updated" 100
  else listForUser username "all" 100.

Definition hint_404 : string :=
  "User not found or you don't have access to their repositories".
Definition hint_401 : string :=
  "Invalid GitHub token or insufficient permissions".

Definition getUserRepos (octokit : Octokit) (username : string) : IO (list Repo.t) :=
  try_catch
    (console_log ("Fetching repositories for user: " +:+ username);;
     authenticatedUser ← await (users_getAuthenticated octokit);
     repos ← (if isOwnRepos authenticatedUser username
              then
                console_log "Fetching your own repositories (including private ones)...";;
                await (paginate_repos octokit (listing_request true username))
              else
                console_log "Fetching repositories for another user (public only)...";;
                await (paginate_repos octokit (listing_request false username)));
     console_log ("Found " +:+ pretty (Z.of_nat (length repos)) +:+ " repositories");;
     mret repos)
    (λ error,
       console_error ("Error fetching repositories: " +:+ message error);;
       (if bool_decide (status error = Some 404) then console_error hint_404
        else if bool_decide (status error = Some 401) then console_error hint_401
        else mret tt);;
       throw error).

(** ** The report: [processRepositories] *)

Definition repoData (repo : Repo.t) (commitInfo : CommitInfo.t) : Report.t :=
  {| Report.name := Repo.name repo;
     Report.fullName := Repo.full_name repo;
     Report.private := Repo.private repo;
     Report.archived := Repo.archived repo;
     Report.fork := Repo.fork repo;
     Report.forkedFrom :=
       match Repo.fork repo, Repo.parent repo with
       | true, Some p => Repo.parent_full_name p
       | _, _ => ""
       end;
     Report.description := default "" (truthy (Repo.description repo));
     Report.url := Repo.html_url repo;
     Report.stars := Repo.stargazers_count repo;
     Report.forks := Repo.forks_count repo;
     Report.language := default "N/A" (truthy (Repo.language repo));
     Report.createdAt := Repo.created_at repo;
     Report.updatedAt := Repo.updated_at repo;
     Report.commitCount := CommitInfo.commitCount commitInfo;
     Report.lastCommitDate := CommitInfo.lastCommitDate commitInfo;
     Report.size := Repo.size repo |}.

Definition processRepo (octokit : Octokit) (repo : Repo.t) (index : Z) : IO Report.t :=
  commitInfo ← getRepoCommitInfo octokit (User.login (Repo.owner repo)) (Repo.name repo);
  mret (repoData repo commitInfo).

(** The loop of [processConcurrently] is given one unit of fuel per
    repository and one more, which the limit of 10 never uses up. *)
Definition processRepositories (octokit : Octokit) (delay : Z → nat) (username : string)
    : IO (list Report.t) :=
  repos ← getUserRepos octokit username;
  console_log "Processing repository details...";;
  console_log ("Using concurrency limit: " +:+ pretty CONCURRENCY_LIMIT);;
  processedRepos ← promise_of_run
    (processConcurrently Repo.name repos (processRepo octokit) CONCURRENCY_LIMIT delay
       (S (length repos)));
  mret processedRepos.

(** ** The CSV export: [generateCSV] *)

Definition csv_header : list (string * string) :=
  [("name", "Repository Name"); ("fullName", "Full Name"); ("private", "Private");
   ("archived", "Archived"); ("fork", "Is Fork"); ("forkedFrom", "Forked From");
   ("description", "Description"); ("url", "URL"); ("stars", "Stars");
   ("forks", "Forks"); ("language", "Primary Language");
   ("commitCount", "Commit Count"); ("lastCommitDate", "Last Commit Date");
   ("createdAt", "Created Date"); ("updatedAt", "Updated Date"); ("size", "Size (KB)")].

(** The csv-writer package: whether writing the records to a path with a
    header succeeds. *)
Record CsvWriter := mkCsvWriter {
  writeRecords : string → list (string * string) → list Report.t → outcome unit
}.

Definition generateCSV (csv : CsvWriter) (repositories : list Report.t) (outputPath : string)
    : IO unit :=
  await (writeRecords csv outputPath csv_header repositories);;
  console_log ("CSV file generated: " +:+ outputPath).

(** ** Dates: [new Date()] and [toISOString] *)

Definition digit (d : Z) : ascii :=
  match d with
  | 0 => "0" | 1 => "1" | 2 => "2" | 3 => "3" | 4 => "4"
  | 5 => "5" | 6 => "6" | 7 => "7" | 8 => "8" | _ => "9"
  end%char.

(** The [width] low-order decimal digits of [x], zero-padded. *)
Fixpoint digits (width : nat) (x : Z) : string :=
  match width with
  | O => ""
  | S w => digits w (x / 10) +:+ String (digit (x mod 10)) ""
  end.

(** [Date.prototype.toISOString]: [YYYY-MM-DDTHH:mm:ss.sssZ]; years outside
    0..9999 are written with a sign and six digits. *)
Definition toISOString (d : Date.t) : string :=
  let y := Date.year d in
  (if bool_decide (0 ≤ y ≤ 9999) then digits 4 y
   else (if bool_decide (y < 0) then "-" else "+") +:+ digits 6 (Z.abs y))
  +:+ "-" +:+ digits 2 (Date.month d) +:+ "-" +:+ digits 2 (Date.day d)
  +:+ "T" +:+ digits 2 (Date.hours d) +:+ ":" +:+ digits 2 (Date.minutes d)
  +:+ ":" +:+ digits 2 (Date.seconds d) +:+ "." +:+ digits 3 (Date.milliseconds d) +:+ "Z".

(** ** The program: [run] *)

(** What the process printed, and its exit code once it has exited. *)
Record Process := mkProcess { output : list console_line; exit_code : option Z }.

Definition timestamp (now : Date.t) : string :=
  str_slice (replace_colon_dot (toISOString now)) 0 19.

Definition outputPath (now : Date.t) (username : string) (outputFile : option string)
    : string :=
  default (username +:+ "-repositories-" +:+ timestamp now +:+ ".csv") (truthy outputFile).

Definition count (p : Report.t → bool) (repositories : list Report.t) : string :=
  pretty (Z.of_nat (length (filter (λ r, p r = true) repositories))).

Definition summary (own : bool) (username : string) (repositories : list Report.t)
    (path : string) : IO unit :=
  console_log (String "010"%char "=== Summary ===");;
  (if own then console_log "Analyzed your own repositories (including private ones)"
   else console_log ("Analyzed repositories for user: " +:+ username +:+ " (public only)"));;
  console_log ("Total repositories: " +:+ pretty (Z.of_nat (length repositories)));;
  console_log ("Private repositories: " +:+ count Report.private repositories);;
  console_log ("Public repositories: " +:+ count (λ r, negb (Report.private r)) repositories);;
  console_log ("Archived repositories: " +:+ count Report.archived repositories);;
  console_log ("Forked repositories: " +:+ count Report.fork repositories);;
  console_log ("Original repositories: " +:+ count (λ r, negb (Report.fork r)) repositories);;
  console_log ("Total stars: " +:+
               pretty (foldl (λ sum r, sum + Report.stars r) 0 repositories));;
  console_log ("Output saved to: " +:+ path).

Definition run_body (octokit : Octokit) (csv : CsvWriter) (delay : Z → nat) (now : Date.t)
    (username : string) (outputFile : option string) : IO unit :=
  let path := outputPath now username outputFile in
  console_log "Starting GitHub repository analysis...";;
  authenticatedUser ← await (users_getAuthenticated octokit);
  let own := isOwnRepos authenticatedUser username in
  repositories ← processRepositories octokit delay username;
  generateCSV csv repositories path;;
  summary own username repositories path.

Definition run (octokit : Octokit) (csv : CsvWriter) (delay : Z → nat) (now : Date.t)
    (username : option string) (outputFile : option string) : Process :=
  match truthy username with
  | None =>
      mkProcess [Err "Please provide a GitHub username";
                 Log "Usage: node index.js <username> [output-file.csv]"] (Some 1)
  | Some username =>
      let body := run_body octokit csv delay now username outputFile in
      match settled body with
      | Fulfilled _ => mkProcess (console body) (Some 0)
      | Rejected error =>
          mkProcess (console body ++ [Err ("Application error: " +:+ message error)]) (Some 1)
      | Pending => mkProcess (console body) None
      end
  end.

(** ** Vocabulary of the properties about the remote service *)

(** Every request of the enricher is answered, with a result or with an
    error: none is left without an answer for ever. *)
Definition responsive (octokit : Octokit) : Prop :=
  (∀ owner repo, repos_get octokit owner repo ≠ Pending)
  ∧ (∀ owner repo sha per_page, repos_listCommits octokit owner repo sha per_page ≠ Pending)
  ∧ (∀ owner repo sha per_page, paginate_listCommits octokit owner repo sha per_page ≠ Pending).

(** One of the remote steps of the enricher fails with [e]: resolving the
    default branch, fetching the latest commit, or (when commits are
    counted) paginating the commits. *)
Inductive enrichment_fails (fetch_commit_count : bool) (octokit : Octokit)
    (owner repo : string) (e : Error) : Prop :=
| default_branch_fails :
    repos_get octokit owner repo = Rejected e →
    enrichment_fails fetch_commit_count octokit owner repo e
| latest_commit_fails repoInfo :
    repos_get octokit owner repo = Fulfilled repoInfo →
    repos_listCommits octokit owner repo (Repo.default_branch (data repoInfo)) 1 = Rejected e →
    enrichment_fails fetch_commit_count octokit owner repo e
| commit_count_fails repoInfo commits :
    fetch_commit_count = true →
    repos_get octokit owner repo = Fulfilled repoInfo →
    repos_listCommits octokit owner repo (Repo.default_branch (data repoInfo)) 1
      = Fulfilled commits →
    paginate_listCommits octokit owner repo (Repo.default_branch (data repoInfo)) 100
      = Rejected e →
    enrichment_fails fetch_commit_count octokit owner repo e.

(** Both lookups succeed, but the first commit listed for the default
    branch carries no committer. *)
Definition latest_commit_without_committer (octokit : Octokit) (owner repo : string) : Prop :=
  ∃ repoInfo commits first,
    repos_get octokit owner repo = Fulfilled repoInfo
    ∧ repos_listCommits octokit owner repo (Repo.default_branch (data repoInfo)) 1
      = Fulfilled commits
    ∧ head (data commits) = Some first
    ∧ Commit.committer (Commit.commit first) = None.

Definition zero_record : CommitInfo.t :=
  {| CommitInfo.commitCount := 0; CommitInfo.lastCommitDate := Null |}.

(** What the enricher delivers for a repository. *)
Definition enrichment (octokit : Octokit) (repo : Repo.t) : CommitInfo.t :=
  match settled (getRepoCommitInfo octokit (User.login (Repo.owner repo)) (Repo.name repo)) with
  | Fulfilled info => info
  | _ => zero_record
  end.

(** The request that [getUserRepos] makes after the authenticated user, or
    the lookup of the authenticated user itself, fails with [e]. *)
Definition listing_fails (octokit : Octokit) (username : string) (e : Error) : Prop :=
  users_getAuthenticated octokit = Rejected e
  ∨ ∃ authenticatedUser,
      users_getAuthenticated octokit = Fulfilled authenticatedUser
      ∧ paginate_repos octokit
          (listing_request (isOwnRepos authenticatedUser username) username) = Rejected e.

(** The hint printed for an error, by its status. *)
Definition hint_lines (e : Error) : list console_line :=
  if bool_decide (status e = Some 404) then [Err hint_404]
  else if bool_decide (status e = Some 401) then [Err hint_401]
  else [].

(** The line that tells which of the two listings is used. *)
Definition mode_line (own : bool) : console_line :=
  if own then Log "Fetching your own repositories (including private ones)..."
  else Log "Fetching repositories for another user (public only)...".

(** A hint is among the lines printed. *)
Definition prints_hint (lines : list console_line) : Prop :=
  ∃ hint, hint ∈ [Err hint_404; Err hint_401] ∧ hint ∈ lines.

(** The default file name as the specification words it: the user name,
    [-repositories-], the ISO timestamp with every colon and dot replaced
    by a dash, [.csv]. *)
Definition filename_as_specified (now : Date.t) (username : string) : string :=
  username +:+ "-repositories-" +:+ replace_colon_dot (toISOString now) +:+ ".csv".

(** The timestamp cut to whole seconds: [YYYY-MM-DDTHH-mm-ss]. *)
Definition seconds_stamp (now : Date.t) : string :=
  digits 4 (Date.year now) +:+ "-" +:+ digits 2 (Date.month now) +:+ "-" +:+
  digits 2 (Date.day now) +:+ "T" +:+ digits 2 (Date.hours now) +:+ "-" +:+
  digits 2 (Date.minutes now) +:+ "-" +:+ digits 2 (Date.seconds now).

(** ** Sample inputs, used to run the definitions *)

Definition sample_items : list string := ["alpha"; "beta"; "gamma"; "delta"; "epsilon"].

Definition sample_processor (item : string) (globalIndex : Z) : IO string :=
  mret (item +:+ "#" +:+ pretty globalIndex).

Definition sample_outs : list string :=
  ["alpha#0"; "beta#1"; "gamma#2"; "delta#3"; "epsilon#4"].

(** Later calls settle first. *)
Definition sample_delay (globalIndex : Z) : nat := Z.to_nat (100 - globalIndex).

Definition sample_25 : list string := replicate 25 "repo".

Definition sample_outs_25 : list string :=
  imap (λ index item, item +:+ "#" +:+ pretty (Z.of_nat index)) sample_25.

Definition sample_repo (name : string) : Repo.t :=
  {| Repo.name := name;
     Repo.full_name := "octocat/" +:+ name;
     Repo.owner := User.mk "octocat";
     Repo.private := false;
     Repo.archived := false;
     Repo.fork := false;
     Repo.parent := None;
     Repo.description := Some "a repository";
     Repo.html_url := "https://github.com/octocat/" +:+ name;
     Repo.stargazers_count := 3;
     Repo.forks_count := 1;
     Repo.language := Some "JavaScript";
     Repo.created_at := "2020-01-01T00:00:00Z";
     Repo.updated_at := "2021-01-01T00:00:00Z";
     Repo.size := 42;
     Repo.default_branch := "main" |}.

Definition sample_commit (date : string) : Commit.t :=
  Commit.mk (Commit.mkGitCommit (Some (Commit.mkGitUser (Some date)))).

Definition sample_repos : list Repo.t :=
  [sample_repo "hello"; sample_repo "gone"; sample_repo "empty"].

(** A service that knows the user octocat; the repository "gone" has
    been deleted, the repository "empty" has no commit. *)
Definition sample_octokit : Octokit :=
  {| users_getAuthenticated := Fulfilled (mkResponse (User.mk "OctoCat"));
     repos_get := λ owner repo,
       if bool_decide (repo = "gone") then Rejected (mkError "Not Found" (Some 404))
       else Fulfilled (mkResponse (sample_repo repo));
     repos_listCommits := λ owner repo sha per_page,
       if bool_decide (repo = "empty") then Fulfilled (mkResponse [])
       else Fulfilled (mkResponse [sample_commit "2024-05-01T10:00:00Z"]);
     paginate_repos := λ request,
       match request with
       | listForAuthenticatedUser _ _ _ _ => Fulfilled sample_repos
       | listForUser _ _ _ => Fulfilled [sample_repo "hello"]
       end;
     paginate_listCommits := λ owner repo sha per_page,
       Fulfilled [sample_commit "2024-05-01T10:00:00Z"; sample_commit "2024-04-01T10:00:00Z"] |}.

(** The same service, except that the commits it lists carry no
    committer. *)
Definition ghost_octokit : Octokit :=
  {| users_getAuthenticated := users_getAuthenticated sample_octokit;
     repos_get := repos_get sample_octokit;
     repos_listCommits := λ _ _ _ _,
       Fulfilled (mkResponse [Commit.mk (Commit.mkGitCommit None)]);
     paginate_repos := paginate_repos sample_octokit;
     paginate_listCommits := paginate_listCommits sample_octokit |}.

(** A service that cannot be reached. *)
Definition network_error : Error :=
  mkError "getaddrinfo ENOTFOUND api.github.com" None.

Definition offline_octokit : Octokit :=
  {| users_getAuthenticated := Rejected network_error;
     repos_get := λ _ _, Rejected network_error;
     repos_listCommits := λ _ _ _ _, Rejected network_error;
     paginate_repos := λ _, Rejected network_error;
     paginate_listCommits := λ _ _ _ _, Rejected network_error |}.

Definition sample_csv : CsvWriter := {| writeRecords := λ _ _ _, Fulfilled tt |}.

Definition sample_now : Date.t := Date.mk 2025 8 6 13 15 30 123.

(** ** The client: [initializeClient] and the main execution *)

(** What [initializeClient] finds at [credentials.json]: no file; a file
    that cannot be read or parsed (the error is caught); or a JSON object,
    of which only the field [github_token] is read (absent when the object
    has no such field). *)
Inductive credentials_file :=
| NoFile
| BrokenFile (error : Error)
| ParsedFile (github_token : option string).

Inductive init_result :=
| ClientReady (auth : string)
| InitExit (code : Z).

Record Init := mkInit { init_output : list console_line; init_result_of : init_result }.

Definition dquote : string := String "034"%char "".

Definition token_help : list console_line :=
  [Err "GitHub token not found. Please provide it via:";
   Err "1. Environment variable: GITHUB_TOKEN";
   Err ("2. credentials.json file with format: {" +:+ dquote +:+ "github_token" +:+ dquote
        +:+ ": " +:+ dquote +:+ "your_token_here" +:+ dquote +:+ "}")].

(** The token after the first [if (!token)] block, with what the block
    printed. *)
Definition token_from_file (file : credentials_file) : list console_line * option string :=
  match file with
  | NoFile => ([], None)
  | BrokenFile error => ([Warn ("Could not read credentials file: " +:+ message error)], None)
  | ParsedFile github_token => ([], github_token)
  end.

Definition initializeClient (GITHUB_TOKEN : option string) (file : credentials_file) : Init :=
  let '(warnings, token) :=
    match truthy GITHUB_TOKEN with
    | Some token => ([], Some token)
    | None => token_from_file file
    end in
  match truthy token with
  | None => mkInit (warnings ++ token_help) (InitExit 1)
  | Some token =>
      mkInit (warnings ++ [Log "GitHub client initialized successfully"]) (ClientReady token)
  end.

(** [new GitHubRepoLister()] followed by [lister.run(argv[2], argv[3])];
    [connect] is the Octokit client built for a token. *)
Definition main (GITHUB_TOKEN : option string) (file : credentials_file)
    (connect : string → Octokit) (csv : CsvWriter) (delay : Z → nat) (now : Date.t)
    (argv : list string) : Process :=
  let init := initializeClient GITHUB_TOKEN file in
  match init_result_of init with
  | InitExit code => mkProcess (init_output init) (Some code)
  | ClientReady token =>
      let p := run (connect token) csv delay now (argv !! 2%nat) (argv !! 3%nat) in
      mkProcess (init_output init ++ output p) (exit_code p)
  end.

(** ** Further vocabulary *)

(** The indices with which the processor was called, in the order of the
    calls. *)
Definition invocations {A} (tr : list (event A)) : list Z :=
  omap (λ e, match e with EInvoke globalIndex => Some globalIndex | _ => None end) tr.

(** The CSV writer accepts every write. *)
Definition csv_writable (csv : CsvWriter) : Prop :=
  ∀ path header records, writeRecords csv path header records = Fulfilled tt.

Definition chars (s : string) : list ascii := String.list_ascii_of_string s.

(** A processor that fails on the item gamma. *)
Definition failing_processor (item : string) (globalIndex : Z) : IO string :=
  if bool_decide (item = "gamma") then throw (mkError "boom" None)
  else sample_processor item globalIndex.

(** A CSV writer that cannot write. *)
Definition readonly_csv : CsvWriter :=
  {| writeRecords := λ _ _ _, Rejected (mkError "EACCES: permission denied" None) |}.

(** The Kelvin sign U+212A followed by elvin, in UTF-8. *)
Definition kelvin_sign_elvin : string :=
  String "226"%char (String "132"%char (String "170"%char "elvin")).

(** A piece of the Unicode tables of an engine, enough for the samples:
    the Kelvin sign lowercases to the letter k. *)
Definition sample_unicode_toLowerCase (s : string) : string :=
  if bool_decide (s = kelvin_sign_elvin) then "kelvin" else s.

(** The service of the samples, for the account kelvin. *)
Definition kelvin_octokit : Octokit :=
  {| users_getAuthenticated := Fulfilled (mkResponse (User.mk "kelvin"));
     repos_get := repos_get sample_octokit;
     repos_listCommits := repos_listCommits sample_octokit;
     paginate_repos := paginate_repos sample_octokit;
     paginate_listCommits := paginate_listCommits sample_octokit |}.

(** Two characters that differ at most by the case of a letter A-Z: the
    codes are equal, or one is the code of a capital letter and the other
    the code of its small letter, 32 above. *)
Definition same_letter (a b : ascii) : Prop :=
  let m := nat_of_ascii a in
  let n := nat_of_ascii b in
  (m = n ∨ ((65 <= m <= 90) ∧ n = m + 32) ∨ ((65 <= n <= 90) ∧ m = n + 32))%nat.

(** Two texts of the same length whose characters differ at most by
    case, position by position. *)
Fixpoint same_ignoring_case (s t : string) : Prop :=
  match s, t with
  | EmptyString, EmptyString => True
  | String a s', String b t' => same_letter a b ∧ same_ignoring_case s' t'
  | _, _ => False
  end.

(** * Properties *)

(** ** The JavaScript runtime *)

Section toLowerCase_facts.
Lemma nat_of_lower_ascii (c : ascii) :
  nat_of_ascii (lower_ascii c)
  = (if bool_decide (65 <= nat_of_ascii c <= 90)%nat
     then nat_of_ascii c + 32 else nat_of_ascii c)%nat.
Proof.
  unfold lower_ascii. case_bool_decide; [|done].
  apply nat_ascii_embedding. lia.
Qed.

Lemma lower_ascii_same_letter (a b : ascii) :
  lower_ascii a = lower_ascii b ↔ same_letter a b.
Proof.
  unfold same_letter. split.
  - intros Heq. apply (f_equal nat_of_ascii) in Heq.
    rewrite !nat_of_lower_ascii in Heq.
    repeat case_bool_decide; lia.
  - intros Hsame.
    rewrite <- (ascii_nat_embedding (lower_ascii a)), <- (ascii_nat_embedding (lower_ascii b)).
    f_equal. rewrite !nat_of_lower_ascii.
    repeat case_bool_decide; lia.
Qed.

Lemma ascii_toLowerCase_same_ignoring_case (s t : string) :
  ascii_toLowerCase s = ascii_toLowerCase t ↔ same_ignoring_case s t.
Proof.
  revert t. induction s as [|a s IH]; intros [|b t]; simpl; try (split; [done|done]).
  rewrite <- lower_ascii_same_letter, <- IH. split.
  - by intros [= -> ->].
  - by intros [-> ->].
Qed.

Lemma toLowerCase_ascii_text (s : string) :
  is_ascii_text s = true → toLowerCase s = ascii_toLowerCase s.
Proof. intros Hs. unfold toLowerCase. by rewrite Hs. Qed.
End toLowerCase_facts.

Section slice_facts.
Context {A : Type}.
Implicit Types l : list A.

Lemma slice_chunk l (i c : Z) :
  0 ≤ i → 0 ≤ c →
  slice l i (i + c) = take (Z.to_nat c) (drop (Z.to_nat i) l).
Proof.
  intros Hi Hc. unfold slice, slice_bound.
  rewrite !bool_decide_eq_false_2 by lia.
  set (n := Z.of_nat (length l)).
  destruct (decide (i + c ≤ n)) as [Hle|Hgt].
  - rewrite !Z.min_l by lia. do 2 f_equal; lia.
  - destruct (decide (i ≤ n)) as [Hin|Hout].
    + rewrite (Z.min_r (i + c)), (Z.min_l i) by lia.
      rewrite !take_ge; [done | rewrite length_drop; lia | rewrite length_drop; lia].
    + rewrite !Z.min_r by lia. rewrite !drop_ge by lia. by rewrite !take_nil.
Qed.

Lemma slice_empty_range l (start stop : Z) :
  slice_bound (Z.of_nat (length l)) stop ≤ slice_bound (Z.of_nat (length l)) start →
  slice l start stop = [].
Proof.
  intros H. unfold slice.
  replace (Z.to_nat _) with 0%nat by lia. done.
Qed.

Lemma length_slice_le l (i c : Z) : 0 ≤ i → 0 ≤ c → Z.of_nat (length (slice l i (i + c))) ≤ c.
Proof.
  intros Hi Hc. rewrite slice_chunk by done. rewrite length_take. lia.
Qed.
End slice_facts.

Section Promise_all_facts.
Context {A : Type}.

Lemma settle_all_fulfilled (vs : list A) (order : list nat) (values : list (option A)) :
  length values = length vs →
  (∀ k, (k < length vs)%nat → k ∉ order → values !! k = Some <$> vs !! k) →
  (∀ k v, values !! k = Some (Some v) → vs !! k = Some v) →
  settle_all (Fulfilled <$> vs) order values = Fulfilled vs.
Proof.
  revert values. induction order as [|k order IH]; intros values Hlen Hdone Hsound; simpl.
  - assert (values = Some <$> vs) as ->.
    { apply list_eq. intros k. rewrite list_lookup_fmap.
      destruct (decide (k < length vs)%nat) as [Hk|Hk].
      - apply Hdone; [done | apply not_elem_of_nil].
      - rewrite !lookup_ge_None_2; [done | lia | lia]. }
    by rewrite (mapM_fmap_Some id Some vs).
  - rewrite list_lookup_fmap. destruct (vs !! k) as [v|] eqn:Hk; simpl.
    + apply IH.
      * by rewrite length_insert.
      * intros j Hj Hnot. destruct (decide (j = k)) as [->|Hne].
        -- rewrite list_lookup_insert_eq; [by rewrite Hk | apply lookup_lt_Some in Hk; lia].
        -- rewrite list_lookup_insert_ne by done. apply Hdone; [done|].
           rewrite elem_of_cons. by intros [?|?].
      * intros j w. destruct (decide (j = k)) as [->|Hne].
        -- rewrite list_lookup_insert_eq by (apply lookup_lt_Some in Hk; lia). congruence.
        -- rewrite list_lookup_insert_ne by done. apply Hsound.
    + apply IH; [done | | done].
      intros j Hj Hnot. apply Hdone; [done|].
      rewrite elem_of_cons. intros [->|?]; [|done].
      apply lookup_ge_None_1 in Hk. lia.
Qed.

Lemma Promise_all_fulfilled (vs : list A) (order : list nat) :
  order ≡ₚ seq 0 (length vs) →
  Promise_all (Fulfilled <$> vs) order = Fulfilled vs.
Proof.
  intros Hperm. unfold Promise_all. rewrite length_fmap.
  apply settle_all_fulfilled.
  - by rewrite length_replicate.
  - intros k Hk Hnot. exfalso. apply Hnot. rewrite Hperm. apply elem_of_seq. lia.
  - intros k v Hkv. apply lookup_replicate in Hkv as [? _]. done.
Qed.
End Promise_all_facts.

Section Promise_all_inversion.
Context {A : Type}.
Implicit Types ps : list (outcome A).

Lemma settle_all_rejected ps order values k e :
  k ∈ order → ps !! k = Some (Rejected e) →
  ∃ e', settle_all ps order values = Rejected e'.
Proof.
  revert values. induction order as [|k' order IH]; intros values Hin Hk.
  - by apply elem_of_nil in Hin.
  - simpl. destruct (ps !! k') as [[v|e'|]|] eqn:Hk'; [|by eauto| |];
      (apply IH; [|done]; apply elem_of_cons in Hin as [->|?]; [congruence|done]).
Qed.

Lemma settle_all_pending ps order values k vs :
  ps !! k = Some Pending → values !! k = Some None →
  settle_all ps order values ≠ Fulfilled vs.
Proof.
  revert values. induction order as [|k' order IH]; intros values Hk Hslot; simpl.
  - destruct (mapM id values) as [ws|] eqn:Hm; [|done].
    apply mapM_Some in Hm.
    destruct (Forall2_lookup_l _ _ _ _ _ Hm Hslot) as (? & _ & ?). done.
  - destruct (ps !! k') as [[v|e'|]|] eqn:Hk'; [|done|by apply IH..].
    apply IH; [done|]. rewrite list_lookup_insert_ne; [done|congruence].
Qed.

Lemma Promise_all_Fulfilled_all ps order vs :
  order ≡ₚ seq 0 (length ps) → Promise_all ps order = Fulfilled vs →
  ∀ k o, ps !! k = Some o → ∃ v, o = Fulfilled v.
Proof.
  intros Hperm Hall k o Hk.
  assert (k ∈ order) as Hin.
  { rewrite Hperm. apply elem_of_seq. apply lookup_lt_Some in Hk. lia. }
  destruct o as [v|e|]; [by eauto| |].
  - destruct (settle_all_rejected ps order (replicate (length ps) None) k e Hin Hk)
      as [e' He']. unfold Promise_all in Hall. congruence.
  - exfalso. eapply (settle_all_pending ps order); [done| |exact Hall].
    apply lookup_replicate_2. by apply lookup_lt_Some in Hk.
Qed.
End Promise_all_inversion.

(** ** Traces *)

Section tally_facts.
Context {A : Type}.
Implicit Types (w : event A → Z) (tr : list (event A)).

Lemma tally_cons w e tr : tally w (e :: tr) = w e + tally w tr.
Proof. done. Qed.

Lemma tally_app w tr1 tr2 : tally w (tr1 ++ tr2) = tally w tr1 + tally w tr2.
Proof. induction tr1 as [|e tr1 IH]; simpl; [done|]. rewrite IH. lia. Qed.

Lemma tally_nonneg w tr : (∀ e, 0 ≤ w e) → 0 ≤ tally w tr.
Proof. intros Hw. induction tr as [|e tr IH]; simpl; [done|]. specialize (Hw e). lia. Qed.

Lemma tally_take_le w tr n : (∀ e, 0 ≤ w e) → tally w (take n tr) ≤ tally w tr.
Proof.
  intros Hw. rewrite <- (take_drop n tr) at 2. rewrite tally_app.
  pose proof (tally_nonneg w (drop n tr) Hw). lia.
Qed.

Lemma tally_zero_lookup w tr n e :
  (∀ e, 0 ≤ w e) → tally w tr = 0 → tr !! n = Some e → w e = 0.
Proof.
  intros Hw Hz Hn. apply list_elem_of_split_length in Hn as (l1 & l2 & -> & _).
  rewrite tally_app in Hz. simpl in Hz.
  pose proof (tally_nonneg w l1 Hw). pose proof (tally_nonneg w l2 Hw).
  specialize (Hw e). lia.
Qed.

Lemma tally_join_imap {X} w (f : nat → X → list (event A)) (l : list X) c :
  (∀ k x, tally w (f k x) = c) → tally w (mjoin (imap f l)) = c * Z.of_nat (length l).
Proof.
  revert f. induction l as [|x l IH]; intros f Hf; [simpl; lia|].
  rewrite length_cons, Nat2Z.inj_succ, imap_cons. simpl mjoin.
  rewrite tally_app, Hf, IH by (intros; apply Hf). lia.
Qed.

Lemma tally_join_fmap_le {X} w (f : X → list (event A)) (l : list X) :
  (∀ x, 0 ≤ tally w (f x) ≤ 1) → 0 ≤ tally w (mjoin (f <$> l)) ≤ Z.of_nat (length l).
Proof.
  intros Hf. induction l as [|x l IH]; [simpl; lia|].
  rewrite length_cons, Nat2Z.inj_succ, fmap_cons. simpl mjoin.
  rewrite tally_app. specialize (Hf x). lia.
Qed.

Lemma tally_join_fmap {X} w (f : X → list (event A)) (l : list X) c :
  (∀ x, x ∈ l → tally w (f x) = c) → tally w (mjoin (f <$> l)) = c * Z.of_nat (length l).
Proof.
  induction l as [|x l IH]; intros Hf; [simpl; lia|].
  rewrite length_cons, Nat2Z.inj_succ, fmap_cons. simpl mjoin.
  rewrite tally_app, Hf, IH.
  - lia.
  - intros y Hy. apply Hf. by right.
  - by left.
Qed.

Lemma in_flight_split tr : in_flight tr = tally invoke_step tr - tally settle_step tr.
Proof.
  induction tr as [|e tr IH]; simpl; [done|].
  unfold in_flight in *. simpl. rewrite IH. destruct e; simpl; lia.
Qed.

Lemma invoke_step_nonneg (e : event A) : 0 ≤ invoke_step e.
Proof. destruct e; simpl; lia. Qed.
Lemma settle_step_nonneg (e : event A) : 0 ≤ settle_step e.
Proof. destruct e; simpl; lia. Qed.
Lemma chunk_step_nonneg (e : event A) : 0 ≤ chunk_step e.
Proof. destruct e; simpl; lia. Qed.

Lemma tally_fmap_EConsole w (ls : list console_line) :
  (∀ l, w (EConsole l) = 0) → tally w (EConsole <$> ls) = 0.
Proof.
  intros Hw. induction ls as [|l ls IH]; [done|].
  rewrite fmap_cons, tally_cons, Hw, IH. done.
Qed.
End tally_facts.

Section schedule_facts.
Context {A : Type}.
Implicit Types tr : list (event A).

Lemma in_flight_app tr1 tr2 : in_flight (tr1 ++ tr2) = in_flight tr1 + in_flight tr2.
Proof. apply tally_app. Qed.

Lemma in_flight_le_invokes tr : in_flight tr ≤ tally invoke_step tr.
Proof.
  rewrite in_flight_split.
  pose proof (tally_nonneg settle_step tr settle_step_nonneg). lia.
Qed.

Lemma never_exceeds_app C tr1 tr2 :
  never_exceeds C tr1 → in_flight tr1 = 0 → never_exceeds C tr2 →
  never_exceeds C (tr1 ++ tr2).
Proof.
  intros H1 Hz H2 n. rewrite take_app, in_flight_app.
  destruct (decide (n ≤ length tr1)%nat) as [Hn|Hn].
  - replace (n - length tr1)%nat with 0%nat by lia.
    rewrite take_0. specialize (H1 n). unfold in_flight at 2. simpl. lia.
  - rewrite take_ge, Hz by lia. apply H2.
Qed.

Lemma chunk_barrier_app C tr1 tr2 :
  chunk_barrier C tr1 → in_flight tr1 = 0 → chunk_barrier C tr2 →
  chunk_barrier C (tr1 ++ tr2).
Proof.
  intros H1 Hz H2 n i batch Hn.
  destruct (decide (n < length tr1)%nat) as [Hlt|Hge].
  - rewrite lookup_app_l in Hn by done.
    rewrite take_app_le by lia. by apply (H1 n i batch).
  - rewrite lookup_app_r in Hn by lia.
    rewrite take_app_ge, in_flight_app, Hz by lia.
    by apply (H2 (n - length tr1)%nat i batch).
Qed.

Lemma never_exceeds_nil C : 0 ≤ C → never_exceeds (A:=A) C [].
Proof. intros HC n. by rewrite take_nil. Qed.

Lemma chunk_barrier_nil C : chunk_barrier (A:=A) C [].
Proof. intros n i batch Hn. by rewrite lookup_nil in Hn. Qed.

Lemma chunks_of_no_chunk tr : tally chunk_step tr = 0 → chunks_of tr = [].
Proof.
  induction tr as [|e tr IH]; [done|]. rewrite tally_cons.
  pose proof (tally_nonneg chunk_step tr chunk_step_nonneg).
  destruct e; simpl; intros; try lia; apply IH; lia.
Qed.

Lemma chunks_of_app tr1 tr2 : chunks_of (tr1 ++ tr2) = chunks_of tr1 ++ chunks_of tr2.
Proof. apply omap_app. Qed.
End schedule_facts.

(** ** The batch runner *)

Lemma completion_order_perm delay i n : completion_order delay i n ≡ₚ seq 0 n.
Proof. apply merge_sort_Permutation. Qed.

Section runner_facts.
Context {A B : Type}.
Variable item_name : A → string.
Variable items : list A.
Variable processor : A → Z → IO B.
Variable concurrency : Z.
Variable delay : Z → nat.

Abbreviation N := (Z.of_nat (length items)).
Abbreviation loop := (loop item_name items processor concurrency delay).

Lemma all_fulfilled_length outs :
  all_fulfilled processor items outs → length outs = length items.
Proof.
  intros H. apply (f_equal length) in H. by rewrite length_imap, length_fmap in H.
Qed.

Lemma all_fulfilled_lookup outs (k : nat) item :
  all_fulfilled processor items outs → items !! k = Some item →
  ∃ v, outs !! k = Some v ∧ settled (processor item (Z.of_nat k)) = Fulfilled v.
Proof.
  intros H Hk. apply (f_equal (.!! k)) in H.
  rewrite list_lookup_imap, list_lookup_fmap, Hk in H. simpl in H.
  destruct (outs !! k) as [v|]; simplify_eq/=. eauto.
Qed.

Lemma batch_settled outs (i c : Z) :
  all_fulfilled processor items outs → 0 ≤ i → 0 ≤ c →
  settled <$> batchPromises processor i (slice items i (i + c))
  = Fulfilled <$> take (Z.to_nat c) (drop (Z.to_nat i) outs).
Proof.
  intros H Hi Hc. rewrite slice_chunk by done. unfold batchPromises.
  apply list_eq. intros k.
  rewrite !list_lookup_fmap, list_lookup_imap, !lookup_take.
  destruct (decide (k < Z.to_nat c)%nat); [|done].
  rewrite !lookup_drop.
  apply (f_equal (.!! (Z.to_nat i + k)%nat)) in H.
  rewrite list_lookup_imap, list_lookup_fmap in H.
  destruct (items !! (Z.to_nat i + k)%nat) as [item|]; simpl in *.
  - rewrite <- H. do 3 f_equal. lia.
  - by rewrite <- H.
Qed.

Lemma loop_S (fuel : nat) (i : Z) (results : list B) :
  loop (S fuel) i results =
  if bool_decide (i < N) then
    match Promise_all (settled <$> batchPromises processor i (slice items i (i + concurrency)))
            (completion_order delay i (length (slice items i (i + concurrency)))) with
    | Fulfilled batchResults =>
        mkRun (run_status_of (loop fuel (i + concurrency) (results ++ batchResults)))
              (chunk_events item_name items processor delay i (slice items i (i + concurrency))
                 ++ trace (loop fuel (i + concurrency) (results ++ batchResults)))
    | Rejected e =>
        mkRun (Threw e)
              (chunk_events item_name items processor delay i (slice items i (i + concurrency)))
    | Pending =>
        mkRun Stuck
              (chunk_events item_name items processor delay i (slice items i (i + concurrency)))
    end
  else mkRun (Returned results) [].
Proof. done. Qed.

Lemma chunk_fulfilled outs (i c : Z) :
  all_fulfilled processor items outs → 0 ≤ i → 0 ≤ c →
  Promise_all (settled <$> batchPromises processor i (slice items i (i + c)))
    (completion_order delay i (length (slice items i (i + c))))
  = Fulfilled (take (Z.to_nat c) (drop (Z.to_nat i) outs)).
Proof.
  intros Hall Hi Hc. rewrite (batch_settled outs) by done.
  apply Promise_all_fulfilled. rewrite slice_chunk by done.
  rewrite !length_take, !length_drop, (all_fulfilled_length _ Hall).
  apply completion_order_perm.
Qed.

Lemma loop_returned outs :
  all_fulfilled processor items outs → 1 ≤ concurrency →
  ∀ (fuel : nat) (i : Z) (results : list B),
    0 ≤ i → Z.max 0 (N - i) < Z.of_nat fuel →
    run_status_of (loop fuel i results) = Returned (results ++ drop (Z.to_nat i) outs).
Proof.
  intros Hall Hc. induction fuel as [|fuel IH]; intros i results Hi Hfuel; simpl.
  - lia.
  - case_bool_decide as Hlt.
    + rewrite (chunk_fulfilled outs) by (done || lia).
      simpl. rewrite IH by lia. rewrite <- (assoc_L (++)). do 2 f_equal.
      rewrite <- (take_drop (Z.to_nat concurrency) (drop (Z.to_nat i) outs)) at 2.
      f_equal. rewrite drop_drop. f_equal. lia.
    + simpl. rewrite drop_ge by (rewrite (all_fulfilled_length _ Hall); lia).
      by rewrite app_nil_r.
Qed.

(** With nothing to process the loop body is never entered, whatever the
    limit. *)
Lemma loop_empty (fuel : nat) (results : list B) :
  items = [] → (0 < fuel)%nat →
  loop fuel 0 results = mkRun (Returned results) [].
Proof. intros -> Hfuel. destruct fuel; [lia|]. done. Qed.

(** A limit of zero or less: the index never moves forward. *)
Lemma slice_nonpositive (i : Z) :
  i ≤ 0 → concurrency ≤ 0 →
  slice items i (i + concurrency)
  = if bool_decide (i = 0 ∧ concurrency < 0)
    then slice items 0 (0 + Z.max 0 (N + concurrency)) else [].
Proof.
  intros Hi Hc. case_bool_decide as Hcase.
  - destruct Hcase as [-> Hneg].
    rewrite (slice_chunk items 0 (Z.max 0 (N + concurrency))) by lia.
    unfold slice, slice_bound.
    repeat case_bool_decide; try lia. do 2 f_equal; lia.
  - apply slice_empty_range. unfold slice_bound.
    repeat case_bool_decide; lia.
Qed.

Lemma loop_never_returns :
  concurrency ≤ 0 → items ≠ [] →
  ∀ (fuel : nat) (i : Z) (results results' : list B),
    i ≤ 0 → run_status_of (loop fuel i results) ≠ Returned results'.
Proof.
  intros Hc Hne. assert (0 < N) by (destruct items; [done | simpl; lia]).
  induction fuel as [|fuel IH]; intros i results results' Hi; simpl; [done|].
  rewrite bool_decide_eq_true_2 by lia.
  destruct (Promise_all _ _); simpl; [|done..]. apply IH. lia.
Qed.

Lemma loop_runs_forever outs :
  all_fulfilled processor items outs → concurrency ≤ 0 → items ≠ [] →
  ∀ (fuel : nat) (i : Z) (results : list B),
    i ≤ 0 → run_status_of (loop fuel i results) = Running.
Proof.
  intros Hall Hc Hne. assert (0 < N) by (destruct items; [done | simpl; lia]).
  induction fuel as [|fuel IH]; intros i results Hi; simpl; [done|].
  rewrite bool_decide_eq_true_2 by lia.
  rewrite slice_nonpositive by done. case_bool_decide as Hcase.
  - destruct Hcase as [-> _].
    rewrite (chunk_fulfilled outs) by (done || lia). simpl. apply IH. lia.
  - change (settled <$> batchPromises processor i []) with (Fulfilled <$> @nil B).
    rewrite (Promise_all_fulfilled []) by apply completion_order_perm.
    simpl. apply IH. lia.
Qed.

End runner_facts.

Section chunk_events_facts.
Context {A B : Type}.
Variable item_name : A → string.
Variable items : list A.
Variable processor : A → Z → IO B.
Variable concurrency : Z.
Variable delay : Z → nat.

Abbreviation launch_events := (launch_events item_name items).
Abbreviation chunk_events := (chunk_events item_name items processor delay).
Abbreviation loop := (loop item_name items processor concurrency delay).

Lemma launch_tally w c i batch :
  (∀ l, w (EConsole l) = 0) → (∀ g, w (EInvoke g) = c) →
  tally w (launch_events i batch) = c * Z.of_nat (length batch).
Proof.
  intros Hcon Hinv. apply tally_join_imap. intros k x.
  rewrite !tally_cons, Hcon, Hinv. simpl. lia.
Qed.

Lemma settle_event_tally w i (ps : list (IO B)) k :
  (∀ l, w (EConsole l) = 0) → (∀ g, w (ESettle g) = 0) →
  tally w (settle_event (A:=A) i ps k) = 0.
Proof.
  intros Hcon Hset. unfold settle_event.
  destruct (ps !! k) as [p|]; [|done].
  destruct (settled p); rewrite ?tally_app, ?tally_fmap_EConsole by done;
    rewrite ?tally_cons, ?Hset; done.
Qed.

Lemma settle_event_settles_le i (ps : list (IO B)) k :
  0 ≤ tally settle_step (settle_event (A:=A) i ps k) ≤ 1.
Proof.
  unfold settle_event. destruct (ps !! k) as [p|]; [|simpl; lia].
  destruct (settled p); rewrite ?tally_app, ?tally_fmap_EConsole by done; simpl; lia.
Qed.

Lemma settle_event_settles i (ps : list (IO B)) k p v :
  ps !! k = Some p → settled p = Fulfilled v →
  tally settle_step (settle_event (A:=A) i ps k) = 1.
Proof.
  intros Hk Hp. unfold settle_event. rewrite Hk, Hp.
  rewrite tally_app, tally_fmap_EConsole by done. done.
Qed.

Lemma settle_tally w i (ps : list (IO B)) order :
  (∀ l, w (EConsole l) = 0) → (∀ g, w (ESettle g) = 0) →
  tally w (settle_events (A:=A) i ps order) = 0.
Proof.
  intros Hcon Hset. unfold settle_events.
  rewrite (tally_join_fmap w _ order 0); [lia|].
  intros k _. by apply settle_event_tally.
Qed.

Lemma chunk_events_invokes i batch :
  tally invoke_step (chunk_events i batch) = Z.of_nat (length batch).
Proof.
  unfold chunk_events.
  rewrite tally_cons, tally_app, (launch_tally _ 1), settle_tally by done.
  simpl. lia.
Qed.

Lemma chunk_events_never_exceeds C i batch :
  Z.of_nat (length batch) ≤ C → never_exceeds C (chunk_events i batch).
Proof.
  intros Hsize n.
  pose proof (in_flight_le_invokes (take n (chunk_events i batch))).
  pose proof (tally_take_le invoke_step (chunk_events i batch) n invoke_step_nonneg).
  rewrite chunk_events_invokes in *. lia.
Qed.

Lemma chunk_events_barrier C i batch :
  Z.of_nat (length batch) ≤ C → chunk_barrier C (chunk_events i batch).
Proof.
  intros Hsize n i' batch' Hn. destruct n as [|n].
  - simpl in Hn. by simplify_eq.
  - exfalso. simpl in Hn.
    assert (chunk_step (EChunk i' batch') = 0) as Hc; [|done].
    eapply (tally_zero_lookup chunk_step _ n); [apply chunk_step_nonneg| |exact Hn].
    rewrite tally_app, (launch_tally _ 0), settle_tally by done. lia.
Qed.

Lemma chunk_events_chunks i batch : chunks_of (chunk_events i batch) = [batch].
Proof.
  unfold chunk_events. simpl. f_equal.
  apply chunks_of_no_chunk.
  rewrite tally_app, (launch_tally _ 0), settle_tally by done. lia.
Qed.

Lemma chunk_events_settled i batch vs :
  Promise_all (settled <$> batchPromises processor i batch)
    (completion_order delay i (length batch)) = Fulfilled vs →
  in_flight (chunk_events i batch) = 0.
Proof.
  intros Hall. rewrite in_flight_split, chunk_events_invokes.
  unfold chunk_events.
  rewrite tally_cons, tally_app, (launch_tally _ 0) by done.
  unfold settle_events. rewrite (tally_join_fmap settle_step _ _ 1).
  - rewrite (Permutation_length (completion_order_perm delay i (length batch))).
    rewrite length_seq. simpl. lia.
  - intros k Hk. rewrite completion_order_perm in Hk. apply elem_of_seq in Hk.
    destruct (lookup_lt_is_Some_2 (batchPromises processor i batch) k) as [p Hp].
    { unfold batchPromises. rewrite length_imap. lia. }
    assert (completion_order delay i (length batch)
              ≡ₚ seq 0 (length (settled <$> batchPromises processor i batch))) as Hperm.
    { rewrite length_fmap. unfold batchPromises. rewrite length_imap.
      apply completion_order_perm. }
    destruct (Promise_all_Fulfilled_all _ _ _ Hperm Hall k (settled p)) as [v Hv].
    { by rewrite list_lookup_fmap, Hp. }
    by eapply settle_event_settles.
Qed.

Lemma loop_schedule (fuel : nat) : ∀ (i : Z) (results : list B),
  0 ≤ i → 0 ≤ concurrency →
  never_exceeds concurrency (trace (loop fuel i results)) ∧
  chunk_barrier concurrency (trace (loop fuel i results)).
Proof.
  induction fuel as [|fuel IH]; intros i results Hi Hc; simpl.
  - split; [by apply never_exceeds_nil | apply chunk_barrier_nil].
  - case_bool_decide as Hlt; simpl.
    2: { split; [by apply never_exceeds_nil | apply chunk_barrier_nil]. }
    pose proof (length_slice_le items i concurrency Hi Hc) as Hsize.
    pose proof (chunk_events_never_exceeds _ i _ Hsize) as Hne.
    pose proof (chunk_events_barrier _ i _ Hsize) as Hba.
    destruct (Promise_all _ _) as [vs|e|] eqn:Hall; simpl; [|done..].
    destruct (IH (i + concurrency) (results ++ vs)) as [IH1 IH2]; [lia..|].
    pose proof (chunk_events_settled _ _ _ Hall) as Hz.
    split.
    + by apply (never_exceeds_app _ (chunk_events i _)).
    + by apply (chunk_barrier_app _ (chunk_events i _)).
Qed.

Lemma loop_chunks outs :
  all_fulfilled processor items outs → 0 ≤ concurrency →
  ∀ (fuel : nat) (i : Z) (results : list B),
    0 ≤ i →
    chunks_of (trace (loop fuel i results)) = chunks_from items concurrency fuel i.
Proof.
  intros Hall Hc. induction fuel as [|fuel IH]; intros i results Hi; [done|].
  rewrite loop_S. cbn [chunks_from]. case_bool_decide as Hlt; [|done].
  rewrite (chunk_fulfilled items processor delay outs) by done. cbn [trace].
  rewrite chunks_of_app, chunk_events_chunks, IH by lia. done.
Qed.
End chunk_events_facts.

Section chunking_facts.
Context {A : Type}.
Variable items : list A.
Variable concurrency : Z.
Hypothesis concurrency_pos : 1 ≤ concurrency.

Abbreviation N := (Z.of_nat (length items)).

Lemma chunks_from_join (fuel : nat) : ∀ i : Z,
  0 ≤ i → Z.max 0 (N - i) < Z.of_nat fuel →
  mjoin (chunks_from items concurrency fuel i) = drop (Z.to_nat i) items.
Proof.
  induction fuel as [|fuel IH]; intros i Hi Hfuel; [lia|]. simpl.
  case_bool_decide as Hlt.
  - simpl. rewrite IH by lia. rewrite slice_chunk by lia.
    rewrite <- (take_drop (Z.to_nat concurrency) (drop (Z.to_nat i) items)) at 2.
    f_equal. rewrite drop_drop. f_equal. lia.
  - simpl. rewrite drop_ge by lia. done.
Qed.

Lemma chunks_from_sizes (fuel : nat) : ∀ i : Z,
  0 ≤ i →
  Forall (λ batch, Z.of_nat (length batch) ≤ concurrency) (chunks_from items concurrency fuel i).
Proof.
  induction fuel as [|fuel IH]; intros i Hi; simpl; [done|].
  case_bool_decide; [|done].
  constructor; [apply length_slice_le; lia | apply IH; lia].
Qed.

Lemma chunks_from_count (fuel : nat) : ∀ i : Z,
  0 ≤ i → Z.max 0 (N - i) < Z.of_nat fuel →
  Z.of_nat (length (chunks_from items concurrency fuel i))
  = Z.max 0 ((N - i + concurrency - 1) / concurrency).
Proof.
  induction fuel as [|fuel IH]; intros i Hi Hfuel; [lia|].
  cbn [chunks_from]. case_bool_decide as Hlt.
  - rewrite length_cons, Nat2Z.inj_succ, IH by lia.
    replace (N - (i + concurrency) + concurrency - 1) with (N - i - 1) by lia.
    replace (N - i + concurrency - 1) with ((N - i - 1) + 1 * concurrency) by lia.
    rewrite Z.div_add by lia.
    assert (0 ≤ (N - i - 1) / concurrency) by (apply Z.div_pos; lia).
    lia.
  - simpl. assert ((N - i + concurrency - 1) / concurrency ≤ 0); [|lia].
    destruct (decide (N - i + concurrency - 1 < 0)).
    + assert ((N - i + concurrency - 1) / concurrency < 0); [|lia].
      apply Z.div_lt_upper_bound; lia.
    + rewrite Z.div_small; lia.
Qed.
End chunking_facts.

(** ** The batch runner: results *)

(** Delays are as general as orders of settling: every order in which the
    calls of a chunk can settle is the one of some assignment of delays. *)

Section completion_order_facts.
Variable order : list nat.
Hypothesis order_NoDup : NoDup order.

Lemma position_lookup (j a : nat) : order !! j = Some a → position order a = j.
Proof.
  intros Hj. unfold position.
  assert (list_find (λ k, k = a) order = Some (j, a)) as ->; [|done].
  apply list_find_Some. split; [done|]. split; [done|].
  intros j' y Hj' Hlt ->.
  pose proof (NoDup_lookup _ _ _ _ order_NoDup Hj Hj'). lia.
Qed.

Lemma position_inj (a b : nat) :
  a ∈ order → b ∈ order → position order a = position order b → a = b.
Proof.
  intros [ja Ha]%list_elem_of_lookup_1 [jb Hb]%list_elem_of_lookup_1.
  rewrite (position_lookup ja a Ha), (position_lookup jb b Hb). intros ->. congruence.
Qed.
End completion_order_facts.

Lemma StronglySorted_lookup {A} (R : relation A) (l : list A) :
  (∀ (j1 j2 : nat) x y, l !! j1 = Some x → l !! j2 = Some y → (j1 < j2)%nat → R x y) →
  StronglySorted R l.
Proof.
  induction l as [|x l IH]; intros Hl; constructor.
  - apply IH. intros j1 j2 y z Hy Hz Hlt. apply (Hl (S j1) (S j2)); [done..|lia].
  - apply Forall_forall. intros y [j Hj]%list_elem_of_lookup_1.
    apply (Hl 0%nat (S j)); [done..|lia].
Qed.

#[local] Instance settles_no_later_trans delay i : Transitive (settles_no_later delay i).
Proof. intros a b c. unfold settles_no_later. lia. Qed.

#[local] Instance settles_no_later_total delay i : Total (settles_no_later delay i).
Proof. intros a b. unfold settles_no_later. lia. Qed.

Lemma every_completion_order_is_possible (i : Z) (order : list nat) :
  order ≡ₚ seq 0 (length order) →
  completion_order (delay_of_order i order) i (length order) = order.
Proof.
  intros Hperm.
  assert (NoDup order) as Hnodup by (rewrite Hperm; apply NoDup_seq).
  assert (∀ a : nat, delay_of_order i order (i + Z.of_nat a) = position order a) as Hdelay.
  { intros a. unfold delay_of_order. f_equal. lia. }
  unfold completion_order.
  apply (StronglySorted_unique_strong (settles_no_later (delay_of_order i order) i)).
  - intros a b Ha Hb Hab Hba. rewrite merge_sort_Permutation, <- Hperm in Ha.
    unfold settles_no_later in *. rewrite !Hdelay in *.
    apply (position_inj order Hnodup); [done..|lia].
  - apply StronglySorted_merge_sort; apply _.
  - apply StronglySorted_lookup. intros j1 j2 a b Ha Hb Hlt.
    unfold settles_no_later. rewrite !Hdelay.
    rewrite (position_lookup order Hnodup j1 a Ha), (position_lookup order Hnodup j2 b Hb). lia.
  - by rewrite merge_sort_Permutation.
Qed.

Lemma processConcurrently_returned {A B} (item_name : A → string)
    (items : list A) (processor : A → Z → IO B) (concurrency : Z) (delay : Z → nat)
    (outs : list B) (fuel : nat) :
  1 ≤ concurrency →
  all_fulfilled processor items outs →
  (length items < fuel)%nat →
  run_status_of (processConcurrently item_name items processor concurrency delay fuel)
    = Returned outs.
Proof.
  intros Hc Hall Hfuel. unfold processConcurrently.
  rewrite (loop_returned item_name items processor concurrency delay outs) by (done || lia).
  done.
Qed.

(** C1. For every list of N items, every processor whose calls all
    fulfil (the call for [items[i]] with [outs[i]]), every limit of at
    least 1 and every assignment of delays, hence every order in which
    the calls of a chunk settle ([every_completion_order_is_possible]),
    [processConcurrently] returns, and what it returns is [outs]: exactly
    N results, the i-th being the output of the processor for the i-th
    item. *)
Theorem processConcurrently_results_in_order {A B} (item_name : A → string)
    (items : list A) (processor : A → Z → IO B) (concurrency : Z) (delay : Z → nat)
    (outs : list B) (fuel : nat) :
  1 ≤ concurrency →
  all_fulfilled processor items outs →
  (length items < fuel)%nat →
  run_status_of (processConcurrently item_name items processor concurrency delay fuel)
    = Returned outs
  ∧ length outs = length items
  ∧ ∀ (i : nat) (item : A), items !! i = Some item →
      ∃ r, outs !! i = Some r ∧ settled (processor item (Z.of_nat i)) = Fulfilled r.
Proof.
  intros Hc Hall Hfuel. split; [|split].
  - by apply processConcurrently_returned.
  - by eapply all_fulfilled_length.
  - intros i item Hi. by eapply all_fulfilled_lookup.
Qed.

Lemma processConcurrently_results_in_order_witness :
  1 ≤ 2
  ∧ all_fulfilled sample_processor sample_items sample_outs
  ∧ (length sample_items < 6)%nat
  ∧ run_status_of (processConcurrently id sample_items sample_processor 2 sample_delay 6)
    = Returned sample_outs.
Proof.
  split; [lia|]. split; [reflexivity|]. split; [simpl; lia|].
  apply (processConcurrently_results_in_order id sample_items sample_processor 2
           sample_delay sample_outs 6); [lia | reflexivity | simpl; lia].
Defined.

(** C5. For every list of N items and every processor whose calls all
    fulfil, a run with a limit of at least N and a run with the limit 1
    return the same list, whatever the delays of either run. *)
Theorem processConcurrently_limit_does_not_change_results {A B} (item_name : A → string)
    (items : list A) (processor : A → Z → IO B) (concurrency : Z)
    (delay delay' : Z → nat) (outs : list B) (fuel fuel' : nat) :
  Z.of_nat (length items) ≤ concurrency →
  all_fulfilled processor items outs →
  (length items < fuel)%nat → (length items < fuel')%nat →
  run_status_of (processConcurrently item_name items processor concurrency delay fuel)
    = Returned outs
  ∧ run_status_of (processConcurrently item_name items processor 1 delay' fuel')
    = Returned outs.
Proof.
  intros Hc Hall Hfuel Hfuel'. split.
  - destruct items as [|item items'] eqn:Hitems.
    + unfold processConcurrently. rewrite loop_empty by (done || lia).
      apply all_fulfilled_length in Hall. by destruct outs.
    + rewrite <- Hitems in *.
      apply processConcurrently_returned; [|done..].
      subst items. simpl in Hc. lia.
  - by apply processConcurrently_returned.
Qed.

Lemma processConcurrently_limit_does_not_change_results_witness :
  Z.of_nat (length sample_items) ≤ 5
  ∧ all_fulfilled sample_processor sample_items sample_outs
  ∧ (length sample_items < 6)%nat ∧ (length sample_items < 9)%nat
  ∧ run_status_of (processConcurrently id sample_items sample_processor 5 sample_delay 6)
    = Returned sample_outs
  ∧ run_status_of (processConcurrently id sample_items sample_processor 1 (λ _, 0%nat) 9)
    = Returned sample_outs.
Proof.
  split; [simpl; lia|]. split; [reflexivity|].
  split; [simpl; lia|]. split; [simpl; lia|].
  apply (processConcurrently_limit_does_not_change_results id sample_items sample_processor 5
           sample_delay (λ _, 0%nat) sample_outs 6 9);
    [simpl; lia | reflexivity | simpl; lia | simpl; lia].
Defined.

(** ** The batch runner: schedule *)

(** C2. For every list, every processor (whether its calls fulfil, fail
    or never settle), every limit of at least 1 and every assignment of
    delays, at every moment of a run, finished or not, at most
    [concurrency] calls of the processor are in flight; every chunk has at
    most [concurrency] items and is taken when no call is in flight any
    more, that is after all the calls of the chunks before it have
    settled. *)
Theorem processConcurrently_in_flight_bound {A B} (item_name : A → string)
    (items : list A) (processor : A → Z → IO B) (concurrency : Z) (delay : Z → nat)
    (fuel : nat) :
  1 ≤ concurrency →
  never_exceeds concurrency
    (trace (processConcurrently item_name items processor concurrency delay fuel))
  ∧ chunk_barrier concurrency
      (trace (processConcurrently item_name items processor concurrency delay fuel)).
Proof.
  intros Hc. apply loop_schedule; lia.
Qed.

Lemma processConcurrently_in_flight_bound_witness :
  1 ≤ 2
  ∧ never_exceeds 2
      (trace (processConcurrently id sample_items sample_processor 2 sample_delay 6))
  ∧ chunk_barrier 2
      (trace (processConcurrently id sample_items sample_processor 2 sample_delay 6)).
Proof.
  split; [lia|].
  apply (processConcurrently_in_flight_bound id sample_items sample_processor 2
           sample_delay 6); lia.
Defined.

(** C6. For every list of N items, every limit C of at least 1 and every
    processor whose calls all fulfil, the chunks taken by a run are
    consecutive pieces of the input: joined together they are the input,
    each has at most C items, and there are ceil(N/C) of them; with 25
    items and the limit 10 they have 10, 10 and 5 items. *)
Theorem processConcurrently_chunks {A B} (item_name : A → string)
    (items : list A) (processor : A → Z → IO B) (concurrency : Z) (delay : Z → nat)
    (outs : list B) (fuel : nat) :
  1 ≤ concurrency →
  all_fulfilled processor items outs →
  (length items < fuel)%nat →
  let chunks :=
    chunks_of (trace (processConcurrently item_name items processor concurrency delay fuel)) in
  mjoin chunks = items
  ∧ Forall (λ batch, Z.of_nat (length batch) ≤ concurrency) chunks
  ∧ Z.of_nat (length chunks) = (Z.of_nat (length items) + concurrency - 1) / concurrency
  ∧ (length items = 25%nat → concurrency = 10 → length <$> chunks = [10; 10; 5]%nat).
Proof.
  intros Hc Hall Hfuel chunks. subst chunks. unfold processConcurrently.
  rewrite (loop_chunks item_name items processor concurrency delay outs) by (done || lia).
  split; [|split; [|split]].
  - rewrite chunks_from_join by lia. done.
  - apply chunks_from_sizes; lia.
  - rewrite chunks_from_count by lia.
    assert (0 ≤ (Z.of_nat (length items) + concurrency - 1) / concurrency)
      by (apply Z.div_pos; lia).
    replace (Z.of_nat (length items) - 0 + concurrency - 1)
      with (Z.of_nat (length items) + concurrency - 1) by lia.
    lia.
  - intros H25 ->.
    do 4 (destruct fuel as [|fuel]; [lia|]).
    cbn [chunks_from]. rewrite H25.
    rewrite !bool_decide_eq_true_2 by lia.
    rewrite bool_decide_eq_false_2 by lia.
    rewrite !fmap_cons, !slice_chunk by lia.
    rewrite !length_take, !length_drop, H25. done.
Qed.

Lemma processConcurrently_chunks_witness :
  1 ≤ 10
  ∧ all_fulfilled sample_processor sample_25 sample_outs_25
  ∧ (length sample_25 < 26)%nat
  ∧ length <$> chunks_of (trace (processConcurrently id sample_25 sample_processor 10
                                   sample_delay 26))
    = [10; 10; 5]%nat.
Proof.
  split; [lia|]. split; [vm_compute; reflexivity|]. split; [simpl; lia|].
  apply (processConcurrently_chunks id sample_25 sample_processor 10 sample_delay
           sample_outs_25 26); [lia | vm_compute; reflexivity | simpl; lia | .. ];
    reflexivity.
Defined.

(** ** The batch runner: a limit of zero or less *)

(** C3, as the code has it. [processConcurrently] does not look at its
    limit: for every non-empty list and every limit of zero or less it
    neither rejects the call nor clamps the limit. The loop index never
    passes the end of the list, so no run ever returns a result list, and
    when every call of the processor fulfils the loop runs for ever. *)
Theorem processConcurrently_nonpositive_limit_never_returns {A B} (item_name : A → string)
    (items : list A) (processor : A → Z → IO B) (concurrency : Z) (delay : Z → nat)
    (fuel : nat) :
  concurrency ≤ 0 →
  items ≠ [] →
  (∀ results,
     run_status_of (processConcurrently item_name items processor concurrency delay fuel)
       ≠ Returned results)
  ∧ (∀ outs, all_fulfilled processor items outs →
       run_status_of (processConcurrently item_name items processor concurrency delay fuel)
         = Running).
Proof.
  intros Hc Hne. split.
  - intros results. by apply loop_never_returns.
  - intros outs Hall. by apply (loop_runs_forever item_name items processor concurrency delay outs).
Qed.

Lemma processConcurrently_nonpositive_limit_never_returns_witness :
  -2 ≤ 0
  ∧ sample_items ≠ []
  ∧ run_status_of (processConcurrently id sample_items sample_processor (-2) sample_delay 50)
    = Running.
Proof.
  split; [lia|]. split; [discriminate|].
  apply (processConcurrently_nonpositive_limit_never_returns id sample_items sample_processor
           (-2) sample_delay 50 ltac:(lia) ltac:(discriminate)) with (outs := sample_outs).
  reflexivity.
Defined.

(** C3 as the specification states it fails: with the limit 0 and five
    items no amount of running makes the call return or reject. *)
Lemma processConcurrently_zero_limit_hangs :
  ¬ ∃ fuel : nat,
      run_status_of (processConcurrently id sample_items sample_processor 0 sample_delay fuel)
        ≠ Running.
Proof.
  intros [fuel Hfuel]. apply Hfuel.
  by apply (loop_runs_forever id sample_items sample_processor 0 sample_delay sample_outs).
Qed.

(** ** The commit enricher *)

Section enricher_facts.
Variable fetch_commit_count : bool.
Variable octokit : Octokit.
Variables owner repo : string.

Abbreviation getInfo := (getRepoCommitInfo_with fetch_commit_count octokit owner repo).

Lemma committer_date_silent (commits : list Commit.t) :
  console (committer_date commits) = [] ∧ settled (committer_date commits) ≠ Pending.
Proof.
  unfold committer_date. destruct (commits !! 0%nat) as [first|]; [|done].
  by destruct (Commit.committer (Commit.commit first)).
Qed.

(** The enricher, remote answer by remote answer. *)
Lemma getRepoCommitInfo_cases :
  let failed e :=
    mkIO [Warn ("Could not fetch commit info for " +:+ owner +:+ "/" +:+ repo
                +:+ ": " +:+ message e)]
         (Fulfilled zero_record) in
  getInfo =
  match repos_get octokit owner repo with
  | Rejected e => failed e
  | Pending => mkIO [] Pending
  | Fulfilled repoInfo =>
      let defaultBranch := Repo.default_branch (data repoInfo) in
      match repos_listCommits octokit owner repo defaultBranch 1 with
      | Rejected e => failed e
      | Pending => mkIO [] Pending
      | Fulfilled commits =>
          match (if fetch_commit_count
                 then paginate_listCommits octokit owner repo defaultBranch 100
                 else Fulfilled []) with
          | Rejected e => failed e
          | Pending => mkIO [] Pending
          | Fulfilled allCommits =>
              match settled (if bool_decide (Z.of_nat (length (data commits)) > 0)
                             then committer_date (data commits) else mret Null) with
              | Fulfilled lastCommitDate =>
                  mkIO [] (Fulfilled
                    {| CommitInfo.commitCount :=
                         if fetch_commit_count then Z.of_nat (length allCommits) else -1;
                       CommitInfo.lastCommitDate := lastCommitDate |})
              | Rejected e => failed e
              | Pending => mkIO [] Pending
              end
          end
      end
  end.
Proof.
  unfold getRepoCommitInfo_with, try_catch, mbind, IO_bind, bind, await. simpl.
  destruct (repos_get octokit owner repo) as [repoInfo| |]; simpl; [|done..].
  destruct (repos_listCommits octokit owner repo _ 1) as [commits| |]; simpl; [|done..].
  assert (∀ (p : outcome (list Commit.t)),
    (if fetch_commit_count then mkIO [] p else mret [])
    = mkIO [] (if fetch_commit_count then p else Fulfilled [])) as ->
    by (by destruct fetch_commit_count).
  cbn [settled console].
  destruct (if fetch_commit_count then _ else _) as [allCommits| |]; simpl; [|done..].
  destruct (committer_date_silent (data commits)) as [Hsilent Hsettles].
  case_bool_decide; simpl; [|done]. rewrite Hsilent.
  by destruct (settled (committer_date (data commits))).
Qed.

Lemma getRepoCommitInfo_never_rejects e : settled getInfo ≠ Rejected e.
Proof.
  rewrite getRepoCommitInfo_cases. cbv zeta.
  repeat (match goal with |- context [match ?x with _ => _ end] => destruct x end;
          cbn [settled]; try done).
Qed.

Lemma getRepoCommitInfo_settles :
  responsive octokit → ∃ info, settled getInfo = Fulfilled info.
Proof.
  intros (Hget & Hlist & Hpage). rewrite getRepoCommitInfo_cases. cbv zeta.
  specialize (Hget owner repo).
  destruct (repos_get octokit owner repo) as [repoInfo| |]; [|by eauto|done].
  specialize (Hlist owner repo (Repo.default_branch (data repoInfo)) 1).
  specialize (Hpage owner repo (Repo.default_branch (data repoInfo)) 100).
  destruct (repos_listCommits octokit owner repo _ 1) as [commits| |]; [|by eauto|done].
  assert ((if fetch_commit_count
           then paginate_listCommits octokit owner repo
                  (Repo.default_branch (data repoInfo)) 100
           else Fulfilled []) ≠ Pending) as Hcount by (by destruct fetch_commit_count).
  destruct (if fetch_commit_count then _ else _) as [allCommits| |]; [|by eauto|done].
  destruct (committer_date_silent (data commits)) as [_ Hsettles].
  case_bool_decide; [|by eauto].
  destruct (settled (committer_date (data commits))); [by eauto..|done].
Qed.

Lemma getRepoCommitInfo_failure e :
  enrichment_fails fetch_commit_count octokit owner repo e →
  getInfo = mkIO [Warn ("Could not fetch commit info for " +:+ owner +:+ "/" +:+ repo
                        +:+ ": " +:+ message e)]
                 (Fulfilled zero_record).
Proof.
  rewrite getRepoCommitInfo_cases. cbv zeta.
  intros [Hget | repoInfo Hget Hlist | repoInfo commits -> Hget Hlist Hpage].
  - by rewrite Hget.
  - by rewrite Hget, Hlist.
  - by rewrite Hget, Hlist, Hpage.
Qed.
End enricher_facts.

(** C7, as the code has it. When the repository lookup and the lookup of
    the latest commit succeed (and, if commits are counted, the pagination
    of the commits), and the first commit that the service lists for the
    default branch, if there is one, carries a committer,
    [getRepoCommitInfo] prints nothing and delivers: as [lastCommitDate]
    the date of that committer, or null when no commit is listed; as
    [commitCount] the number of commits when the flag is on and -1 when it
    is off, and a number of commits is never -1. The flag
    [FETCH_COMMIT_COUNT] is off. *)
Theorem getRepoCommitInfo_success (fetch_commit_count : bool) (octokit : Octokit)
    (owner repo : string) (repoInfo : Response Repo.t)
    (commits : Response (list Commit.t)) (allCommits : list Commit.t) :
  repos_get octokit owner repo = Fulfilled repoInfo →
  repos_listCommits octokit owner repo (Repo.default_branch (data repoInfo)) 1
    = Fulfilled commits →
  (fetch_commit_count = true →
   paginate_listCommits octokit owner repo (Repo.default_branch (data repoInfo)) 100
     = Fulfilled allCommits) →
  (∀ first, head (data commits) = Some first →
     Commit.committer (Commit.commit first) ≠ None) →
  ∃ lastCommitDate,
    (data commits = [] → lastCommitDate = Null)
    ∧ (∀ first committer,
         head (data commits) = Some first →
         Commit.committer (Commit.commit first) = Some committer →
         lastCommitDate = read_date committer)
    ∧ getRepoCommitInfo_with fetch_commit_count octokit owner repo
      = mkIO [] (Fulfilled
          {| CommitInfo.commitCount :=
               if fetch_commit_count then Z.of_nat (length allCommits) else -1;
             CommitInfo.lastCommitDate := lastCommitDate |})
    ∧ Z.of_nat (length allCommits) ≠ -1
    ∧ FETCH_COMMIT_COUNT = false
    ∧ getRepoCommitInfo octokit owner repo
      = mkIO [] (Fulfilled {| CommitInfo.commitCount := -1;
                              CommitInfo.lastCommitDate := lastCommitDate |}).
Proof.
  intros Hget Hlist Hpage Hcommitter.
  assert (∃ lastCommitDate,
    (data commits = [] → lastCommitDate = Null)
    ∧ (∀ first committer,
         head (data commits) = Some first →
         Commit.committer (Commit.commit first) = Some committer →
         lastCommitDate = read_date committer)
    ∧ (if bool_decide (Z.of_nat (length (data commits)) > 0)
       then committer_date (data commits) else mret Null)
      = mkIO [] (Fulfilled lastCommitDate)) as (lastCommitDate & Hnone & Hsome & Hread).
  { destruct (data commits) as [|first rest] eqn:Hdata.
    - exists Null. by rewrite bool_decide_eq_false_2 by (simpl; lia).
    - destruct (Commit.committer (Commit.commit first)) as [committer|] eqn:Hfirst;
        [|by destruct (Hcommitter first)].
      exists (read_date committer).
      split; [done|]. split; [intros ?? [= <-]; congruence|].
      rewrite bool_decide_eq_true_2 by (rewrite length_cons; lia).
      unfold committer_date. simpl. by rewrite Hfirst. }
  assert (∀ fetch,
    (fetch = true →
     paginate_listCommits octokit owner repo (Repo.default_branch (data repoInfo)) 100
       = Fulfilled allCommits) →
    getRepoCommitInfo_with fetch octokit owner repo
    = mkIO [] (Fulfilled
        {| CommitInfo.commitCount := if fetch then Z.of_nat (length allCommits) else -1;
           CommitInfo.lastCommitDate := lastCommitDate |})) as Hwith.
  { intros fetch Hfetch. rewrite getRepoCommitInfo_cases. cbv zeta.
    rewrite Hget, Hlist, Hread. destruct fetch; [|done]. by rewrite Hfetch. }
  exists lastCommitDate. split; [done|]. split; [done|].
  split; [by apply Hwith|]. split; [lia|]. split; [done|].
  unfold getRepoCommitInfo. by rewrite (Hwith FETCH_COMMIT_COUNT).
Qed.

Lemma getRepoCommitInfo_success_witness :
  repos_get sample_octokit "octocat" "hello" = Fulfilled (mkResponse (sample_repo "hello"))
  ∧ repos_listCommits sample_octokit "octocat" "hello" "main" 1
    = Fulfilled (mkResponse [sample_commit "2024-05-01T10:00:00Z"])
  ∧ paginate_listCommits sample_octokit "octocat" "hello" "main" 100
    = Fulfilled [sample_commit "2024-05-01T10:00:00Z"; sample_commit "2024-04-01T10:00:00Z"]
  ∧ Commit.committer (Commit.commit (sample_commit "2024-05-01T10:00:00Z")) ≠ None
  ∧ getRepoCommitInfo_with true sample_octokit "octocat" "hello"
    = mkIO [] (Fulfilled {| CommitInfo.commitCount := 2;
                            CommitInfo.lastCommitDate := Text "2024-05-01T10:00:00Z" |})
  ∧ getRepoCommitInfo sample_octokit "octocat" "hello"
    = mkIO [] (Fulfilled {| CommitInfo.commitCount := -1;
                            CommitInfo.lastCommitDate := Text "2024-05-01T10:00:00Z" |}).
Proof.
  split; [reflexivity|]. split; [reflexivity|]. split; [reflexivity|].
  split; [discriminate|].
  destruct (getRepoCommitInfo_success true sample_octokit "octocat" "hello"
              (mkResponse (sample_repo "hello"))
              (mkResponse [sample_commit "2024-05-01T10:00:00Z"])
              [sample_commit "2024-05-01T10:00:00Z"; sample_commit "2024-04-01T10:00:00Z"]
              eq_refl eq_refl (λ _, eq_refl))
    as (lastCommitDate & _ & Hdate & Hwith & _ & _ & Hplain).
  { intros first [= <-]. discriminate. }
  rewrite (Hdate (sample_commit "2024-05-01T10:00:00Z")
             (Commit.mkGitUser (Some "2024-05-01T10:00:00Z")) eq_refl eq_refl)
    in Hwith, Hplain.
  split; [exact Hwith | exact Hplain].
Defined.

(** C7 as the specification states it fails: both lookups succeed, but the
    commit listed carries no committer; reading its date throws, the
    error is caught, and the count delivered is 0, not -1. *)
Lemma getRepoCommitInfo_null_committer :
  ¬ (repos_get ghost_octokit "octocat" "hello" = Fulfilled (mkResponse (sample_repo "hello")) →
     repos_listCommits ghost_octokit "octocat" "hello" "main" 1
       = Fulfilled (mkResponse [Commit.mk (Commit.mkGitCommit None)]) →
     ∃ info,
       settled (getRepoCommitInfo ghost_octokit "octocat" "hello") = Fulfilled info
       ∧ CommitInfo.commitCount info = -1).
Proof.
  intros Hclaim. destruct (Hclaim eq_refl eq_refl) as (info & Hinfo & Hcount).
  vm_compute in Hinfo. injection Hinfo as <-. discriminate.
Qed.

(** ** The report *)

Section report_facts.
Variable octokit : Octokit.

Lemma processRepo_settled (repo : Repo.t) (index : Z) :
  responsive octokit →
  settled (processRepo octokit repo index)
  = Fulfilled (repoData repo (enrichment octokit repo)).
Proof.
  intros Hresp. unfold processRepo, enrichment, mbind, IO_bind, bind, getRepoCommitInfo.
  destruct (getRepoCommitInfo_settles FETCH_COMMIT_COUNT octokit
              (User.login (Repo.owner repo)) (Repo.name repo) Hresp) as [info ->].
  done.
Qed.

Lemma processRepo_all_fulfilled (repos : list Repo.t) :
  responsive octokit →
  all_fulfilled (processRepo octokit) repos
    ((λ repo, repoData repo (enrichment octokit repo)) <$> repos).
Proof.
  intros Hresp. unfold all_fulfilled. apply list_eq. intros k.
  rewrite list_lookup_imap, !list_lookup_fmap.
  destruct (repos !! k) as [repo|]; simpl; [|done].
  by rewrite processRepo_settled.
Qed.

Lemma processRepositories_settled (delay : Z → nat) (username : string)
    (repos : list Repo.t) :
  settled (getUserRepos octokit username) = Fulfilled repos →
  settled (processRepositories octokit delay username)
  = settled (promise_of_run
      (processConcurrently Repo.name repos (processRepo octokit) CONCURRENCY_LIMIT delay
         (S (length repos)))).
Proof.
  intros Hrepos. unfold processRepositories, mbind, IO_bind, bind.
  rewrite Hrepos. simpl. by destruct (run_status_of _).
Qed.
End report_facts.

(** C4. Whenever one of the remote steps of the enricher fails for a
    repository (the repository lookup, the latest commit, or the
    pagination of the commits when they are counted), [getRepoCommitInfo]
    does not reject: it prints a warning and delivers
    [{commitCount: 0, lastCommitDate: null}]. Hence, when the listing
    delivers N repositories and the service answers every request of the
    enricher, with a result or with an error, [processRepositories]
    delivers N records, and the record of a repository whose enrichment
    failed carries its static fields and the zero record. *)
Theorem enrichment_failure_is_isolated (octokit : Octokit) :
  (∀ fetch_commit_count owner repo e,
     enrichment_fails fetch_commit_count octokit owner repo e →
     getRepoCommitInfo_with fetch_commit_count octokit owner repo
     = mkIO [Warn ("Could not fetch commit info for " +:+ owner +:+ "/" +:+ repo
                   +:+ ": " +:+ message e)]
            (Fulfilled zero_record))
  ∧ (∀ delay username repos,
       responsive octokit →
       settled (getUserRepos octokit username) = Fulfilled repos →
       ∃ records,
         settled (processRepositories octokit delay username) = Fulfilled records
         ∧ length records = length repos
         ∧ ∀ (i : nat) repo e,
             repos !! i = Some repo →
             enrichment_fails FETCH_COMMIT_COUNT octokit
               (User.login (Repo.owner repo)) (Repo.name repo) e →
             records !! i = Some (repoData repo zero_record)).
Proof.
  split.
  - intros fetch owner repo e. apply getRepoCommitInfo_failure.
  - intros delay username repos Hresp Hrepos.
    exists ((λ repo, repoData repo (enrichment octokit repo)) <$> repos).
    split; [|split].
    + rewrite (processRepositories_settled octokit delay username repos Hrepos).
      unfold promise_of_run. simpl.
      rewrite (processConcurrently_returned Repo.name repos (processRepo octokit)
                 CONCURRENCY_LIMIT delay
                 ((λ repo, repoData repo (enrichment octokit repo)) <$> repos)
                 (S (length repos)));
        [done | unfold CONCURRENCY_LIMIT; lia | by apply processRepo_all_fulfilled | lia].
    + by rewrite length_fmap.
    + intros i repo e Hi Hfails. rewrite list_lookup_fmap, Hi. simpl. do 2 f_equal.
      unfold enrichment, getRepoCommitInfo.
      by rewrite (getRepoCommitInfo_failure _ _ _ _ e Hfails).
Qed.

Lemma sample_octokit_responsive : responsive sample_octokit.
Proof.
  split; [|split]; intros; simpl; try case_bool_decide; discriminate.
Qed.

(** ** The listing *)

Section listing_facts.
Variable octokit : Octokit.
Variable username : string.

Lemma getUserRepos_unauthenticated (e : Error) :
  users_getAuthenticated octokit = Rejected e →
  getUserRepos octokit username
  = mkIO (Log ("Fetching repositories for user: " +:+ username)
            :: Err ("Error fetching repositories: " +:+ message e) :: hint_lines e)
         (Rejected e).
Proof.
  intros Hauth.
  unfold getUserRepos, try_catch, hint_lines, mbind, IO_bind, bind, await. simpl.
  rewrite Hauth. simpl. repeat case_bool_decide; done.
Qed.

Lemma getUserRepos_authenticated (authenticatedUser : Response User.t) :
  users_getAuthenticated octokit = Fulfilled authenticatedUser →
  let own := isOwnRepos authenticatedUser username in
  getUserRepos octokit username
  = match paginate_repos octokit (listing_request own username) with
    | Fulfilled repos =>
        mkIO [Log ("Fetching repositories for user: " +:+ username); mode_line own;
              Log ("Found " +:+ pretty (Z.of_nat (length repos)) +:+ " repositories")]
             (Fulfilled repos)
    | Rejected e =>
        mkIO (Log ("Fetching repositories for user: " +:+ username) :: mode_line own
                :: Err ("Error fetching repositories: " +:+ message e) :: hint_lines e)
             (Rejected e)
    | Pending =>
        mkIO [Log ("Fetching repositories for user: " +:+ username); mode_line own] Pending
    end.
Proof.
  intros Hauth own. subst own.
  unfold getUserRepos, try_catch, hint_lines, mode_line, mbind, IO_bind, bind, await. simpl.
  rewrite Hauth. simpl.
  destruct (isOwnRepos authenticatedUser username); simpl;
    destruct (paginate_repos octokit _) as [repos|e|]; simpl; try done;
    repeat case_bool_decide; done.
Qed.

Lemma getUserRepos_failure_console (e : Error) :
  listing_fails octokit username e →
  ∃ before,
    console (getUserRepos octokit username)
    = before ++ Err ("Error fetching repositories: " +:+ message e) :: hint_lines e
    ∧ Forall (λ line, ∃ text, line = Log text) before.
Proof.
  intros [Hauth | (authenticatedUser & Hauth & Hlist)].
  - rewrite (getUserRepos_unauthenticated e Hauth).
    exists [Log ("Fetching repositories for user: " +:+ username)].
    split; [done|]. repeat constructor. by eexists.
  - pose proof (getUserRepos_authenticated authenticatedUser Hauth) as H.
    simpl in H. rewrite Hlist in H. rewrite H.
    exists [Log ("Fetching repositories for user: " +:+ username);
            mode_line (isOwnRepos authenticatedUser username)].
    split; [done|]. repeat constructor; [by eexists|].
    unfold mode_line. destruct (isOwnRepos _ _); by eexists.
Qed.

Lemma hint_lines_hint (e : Error) :
  prints_hint (hint_lines e) ↔ status e = Some 404 ∨ status e = Some 401.
Proof.
  unfold prints_hint, hint_lines. split.
  - intros (hint & _ & Hin). repeat case_bool_decide; [by left | by right |].
    by apply elem_of_nil in Hin.
  - intros Hstatus. repeat case_bool_decide.
    + exists (Err hint_404). split; line_printed.
    + exists (Err hint_401). split; line_printed.
    + by destruct Hstatus.
Qed.

Lemma failure_console_hint (before : list console_line) (e : Error) :
  Forall (λ line, ∃ text, line = Log text) before →
  prints_hint (before ++ Err ("Error fetching repositories: " +:+ message e) :: hint_lines e)
  ↔ prints_hint (hint_lines e).
Proof.
  intros Hbefore. unfold prints_hint. split; intros (hint & Hhint & Hin); exists hint;
    (split; [done|]).
  - apply elem_of_app in Hin as [Hin|Hin].
    + rewrite Forall_forall in Hbefore. destruct (Hbefore hint Hin) as [text ->].
      exfalso. revert Hhint. line_not_printed.
    + apply elem_of_cons in Hin as [->|Hin]; [|done].
      exfalso. revert Hhint. unfold hint_404, hint_401. line_not_printed.
  - apply elem_of_app. right. by apply list_elem_of_further.
Qed.
End listing_facts.

Lemma run_body_listing_fails (octokit : Octokit) (csv : CsvWriter) (delay : Z → nat)
    (now : Date.t) (username : string) (outputFile : option string) (e : Error) :
  listing_fails octokit username e →
  settled (run_body octokit csv delay now username outputFile) = Rejected e.
Proof.
  intros [Hauth | (authenticatedUser & Hauth & Hlist)];
    unfold run_body, mbind, IO_bind, bind, await; simpl; rewrite Hauth; simpl; [done|].
  pose proof (getUserRepos_authenticated octokit username authenticatedUser Hauth) as Hrepos.
  simpl in Hrepos. rewrite Hlist in Hrepos.
  unfold processRepositories, mbind, IO_bind, bind. rewrite Hrepos. done.
Qed.

(** C10. For every requested user name, once the authenticated user is
    known, [getUserRepos] lists with [listForAuthenticatedUser]
    (visibility all, affiliation owner) if and only if the login of the
    authenticated user and the requested name are equal after lowercasing
    both with [String.prototype.toLowerCase], and with [listForUser] for
    the requested name otherwise; it settles as that listing does. The
    comparison ignores case: when the login and the requested name are
    ASCII text, the own-account listing is chosen exactly when the two
    have the same length and differ, position by position, at most by the
    case of a letter A-Z. *)
Theorem getUserRepos_mode_selection (octokit : Octokit) (username : string)
    (authenticatedUser : Response User.t) :
  users_getAuthenticated octokit = Fulfilled authenticatedUser →
  (isOwnRepos authenticatedUser username = true
   ↔ toLowerCase (User.login (data authenticatedUser)) = toLowerCase username)
  ∧ (toLowerCase (User.login (data authenticatedUser)) = toLowerCase username →
     settled (getUserRepos octokit username)
     = paginate_repos octokit (listForAuthenticatedUser "all" "owner" "updated" 100)
     ∧ mode_line true ∈ console (getUserRepos octokit username)
     ∧ mode_line false ∉ console (getUserRepos octokit username))
  ∧ (toLowerCase (User.login (data authenticatedUser)) ≠ toLowerCase username →
     settled (getUserRepos octokit username)
     = paginate_repos octokit (listForUser username "all" 100)
     ∧ mode_line false ∈ console (getUserRepos octokit username)
     ∧ mode_line true ∉ console (getUserRepos octokit username))
  ∧ (is_ascii_text (User.login (data authenticatedUser)) = true →
     is_ascii_text username = true →
     (same_ignoring_case (User.login (data authenticatedUser)) username →
      settled (getUserRepos octokit username)
      = paginate_repos octokit (listForAuthenticatedUser "all" "owner" "updated" 100)
      ∧ mode_line true ∈ console (getUserRepos octokit username))
     ∧ (¬ same_ignoring_case (User.login (data authenticatedUser)) username →
        settled (getUserRepos octokit username)
        = paginate_repos octokit (listForUser username "all" 100)
        ∧ mode_line false ∈ console (getUserRepos octokit username))).
Proof.
  intros Hauth.
  pose proof (getUserRepos_authenticated octokit username authenticatedUser Hauth) as Hrepos.
  simpl in Hrepos.
  assert (Hown : toLowerCase (User.login (data authenticatedUser)) = toLowerCase username →
     settled (getUserRepos octokit username)
     = paginate_repos octokit (listForAuthenticatedUser "all" "owner" "updated" 100)
     ∧ mode_line true ∈ console (getUserRepos octokit username)
     ∧ mode_line false ∉ console (getUserRepos octokit username)).
  { intros Hcase. unfold isOwnRepos in Hrepos.
    rewrite bool_decide_eq_true_2 in Hrepos by done. rewrite Hrepos.
    unfold listing_request, mode_line, hint_lines.
    destruct (paginate_repos octokit _) as [repos|e|]; simpl;
      (split; [done|]); (split; [line_printed|]);
      repeat case_bool_decide; line_not_printed. }
  assert (Hother : toLowerCase (User.login (data authenticatedUser)) ≠ toLowerCase username →
     settled (getUserRepos octokit username)
     = paginate_repos octokit (listForUser username "all" 100)
     ∧ mode_line false ∈ console (getUserRepos octokit username)
     ∧ mode_line true ∉ console (getUserRepos octokit username)).
  { intros Hcase. unfold isOwnRepos in Hrepos.
    rewrite bool_decide_eq_false_2 in Hrepos by done. rewrite Hrepos.
    unfold listing_request, mode_line, hint_lines.
    destruct (paginate_repos octokit _) as [repos|e|]; simpl;
      (split; [done|]); (split; [line_printed|]);
      repeat case_bool_decide; line_not_printed. }
  split; [apply bool_decide_eq_true|]. split; [done|]. split; [done|].
  intros Hlogin Hname.
  rewrite <- ascii_toLowerCase_same_ignoring_case,
    <- (toLowerCase_ascii_text _ Hlogin), <- (toLowerCase_ascii_text _ Hname).
  split; intros Hcase.
  - destruct (Hown Hcase) as (? & ? & ?). done.
  - destruct (Hother Hcase) as (? & ? & ?). done.
Qed.

(** C8, as the code has it. For every error [e] raised while the
    repositories are listed, [getUserRepos] prints the message of the
    error, then a hint only if the status of the error is 404 or 401 (no
    hint for any other error, such as a network failure), and rejects with
    the same error [e]: no partial or empty list is delivered. [run] then
    prints the message as an application error and exits with code 1. *)
Theorem getUserRepos_reraises (octokit : Octokit) (username : string) (e : Error) :
  listing_fails octokit username e →
  settled (getUserRepos octokit username) = Rejected e
  ∧ (∃ before,
       console (getUserRepos octokit username)
       = before ++ Err ("Error fetching repositories: " +:+ message e) :: hint_lines e)
  ∧ (prints_hint (console (getUserRepos octokit username))
     ↔ status e = Some 404 ∨ status e = Some 401)
  ∧ ∀ csv delay now outputFile,
      username ≠ "" →
      exit_code (run octokit csv delay now (Some username) outputFile) = Some 1
      ∧ last (output (run octokit csv delay now (Some username) outputFile))
        = Some (Err ("Application error: " +:+ message e)).
Proof.
  intros Hfails.
  destruct (getUserRepos_failure_console octokit username e Hfails)
    as (before & Hconsole & Hbefore).
  split; [|split; [|split]].
  - destruct Hfails as [Hauth | (authenticatedUser & Hauth & Hlist)].
    + by rewrite (getUserRepos_unauthenticated octokit username e Hauth).
    + pose proof (getUserRepos_authenticated octokit username authenticatedUser Hauth) as H.
      simpl in H. rewrite Hlist in H. by rewrite H.
  - by exists before.
  - rewrite Hconsole, failure_console_hint by done. apply hint_lines_hint.
  - intros csv delay now outputFile Hname.
    pose proof (run_body_listing_fails octokit csv delay now username outputFile e Hfails)
      as Hbody.
    unfold run. destruct username as [|c rest]; [done|]. cbn [truthy].
    rewrite Hbody. cbn [exit_code output]. by rewrite last_snoc.
Qed.

(** ** The default file name *)

Lemma digit_not_colon_dot (d : Z) : is_colon_or_dot (digit d) = false.
Proof.
  unfold digit. destruct d as [|p|p]; [done| |done].
  do 4 (destruct p as [p|p|]; try done).
Qed.

Lemma timestamp_seconds (now : Date.t) :
  0 ≤ Date.year now ≤ 9999 → timestamp now = seconds_stamp now.
Proof.
  intros Hyear. unfold timestamp, seconds_stamp, toISOString.
  rewrite bool_decide_eq_true_2 by done.
  cbv [digits String.append replace_colon_dot].
  rewrite !digit_not_colon_dot. reflexivity.
Qed.

(** C9, as the code has it. When no output file is given the file name
    is the user name, [-repositories-], T, [.csv], where T is the first 19
    characters of the ISO 8601 timestamp with its colons and dots replaced
    by dashes: for the years 0 to 9999 that is the timestamp cut to whole
    seconds, [YYYY-MM-DDTHH-mm-ss], without the milliseconds and the
    final Z. *)
Theorem default_output_path (now : Date.t) (username : string) :
  0 ≤ Date.year now ≤ 9999 →
  outputPath now username None
  = username +:+ "-repositories-" +:+ str_slice (replace_colon_dot (toISOString now)) 0 19
    +:+ ".csv"
  ∧ str_slice (replace_colon_dot (toISOString now)) 0 19 = seconds_stamp now
  ∧ String.length (seconds_stamp now) = 19%nat.
Proof.
  intros Hyear. split; [done|]. split; [by apply timestamp_seconds|].
  unfold seconds_stamp. cbv [digits String.append String.length]. reflexivity.
Qed.

Lemma default_output_path_witness :
  0 ≤ Date.year sample_now ≤ 9999
  ∧ outputPath sample_now "octocat" None = "octocat-repositories-2025-08-06T13-15-30.csv".
Proof.
  split; [simpl; lia|].
  destruct (default_output_path sample_now "octocat" ltac:(simpl; lia)) as (Hpath & _ & _).
  rewrite Hpath. reflexivity.
Defined.

(** C9 as the specification states it fails: the file name is not the
    one made of the whole timestamp, whose milliseconds and final Z the
    code cuts off. *)
Lemma default_output_path_is_truncated :
  outputPath sample_now "octocat" None ≠ filename_as_specified sample_now "octocat".
Proof. vm_compute. discriminate. Qed.

(** * Further properties of the code *)

(** ** The batch runner: calls, chunks and failures *)

Lemma fmap_seq_shift (i m : nat) :
  (λ index : nat, Z.of_nat i + Z.of_nat index) <$> seq 0 m = Z.of_nat <$> seq i m.
Proof.
  revert i. induction m as [|m IH]; intros i; [done|].
  cbn [seq fmap list_fmap]. f_equal; [lia|].
  rewrite <- fmap_S_seq, <- list_fmap_compose, <- (IH (S i)).
  apply list_fmap_ext. intros ? k _. simpl. lia.
Qed.

Section invocation_facts.
Context {A B : Type}.
Variable item_name : A → string.
Variable items : list A.
Variable processor : A → Z → IO B.
Variable concurrency : Z.
Variable delay : Z → nat.

Abbreviation N := (Z.of_nat (length items)).
Abbreviation loop := (loop item_name items processor concurrency delay).
Abbreviation chunk_events := (chunk_events item_name items processor delay).

Lemma invocations_app (tr1 tr2 : list (event A)) :
  invocations (tr1 ++ tr2) = invocations tr1 ++ invocations tr2.
Proof. apply omap_app. Qed.

Lemma invocations_none (tr : list (event A)) :
  tally invoke_step tr = 0 → invocations tr = [].
Proof.
  induction tr as [|e tr IH]; [done|]. rewrite tally_cons.
  pose proof (tally_nonneg invoke_step tr invoke_step_nonneg).
  destruct e; simpl; intros; try lia; apply IH; lia.
Qed.

Lemma invocations_launch_gen (f : nat → A → list (event A)) (g : nat → Z)
    (h : nat → A → console_line) (batch : list A) :
  (∀ index item, f index item = [EConsole (h index item); EInvoke (g index)]) →
  invocations (mjoin (imap f batch)) = g <$> seq 0 (length batch)
  ∧ console_of (mjoin (imap f batch)) = imap h batch.
Proof.
  revert f g h. induction batch as [|item batch IH]; intros f g h Hf; [done|].
  rewrite !imap_cons, length_cons.
  change (mjoin (f 0%nat item :: ?ls)) with (f 0%nat item ++ mjoin ls).
  destruct (IH (f ∘ S) (g ∘ S) (h ∘ S)) as [IH1 IH2]; [intros; apply Hf|].
  split.
  - rewrite invocations_app, IH1, Hf.
    cbn [seq fmap list_fmap]. rewrite <- fmap_S_seq, <- list_fmap_compose. done.
  - unfold console_of in *. rewrite omap_app, IH2, Hf. done.
Qed.

Lemma invocations_chunk_events (i : Z) (batch : list A) :
  invocations (chunk_events i batch) = (λ index : nat, i + Z.of_nat index) <$> seq 0 (length batch).
Proof.
  unfold chunk_events, launch_events.
  change (invocations (EChunk i batch :: ?tr)) with (invocations tr).
  rewrite invocations_app.
  rewrite (proj1 (invocations_launch_gen _ (λ index, i + Z.of_nat index)
                    (λ index item, progress_line item_name items (i + Z.of_nat index) item)
                    batch (λ _ _, eq_refl))).
  rewrite (invocations_none (settle_events _ _ _)), app_nil_r; [done|].
  by apply settle_tally.
Qed.

Lemma loop_invocations outs :
  all_fulfilled processor items outs → 1 ≤ concurrency →
  ∀ (fuel : nat) (i : nat) (results : list B),
    Z.max 0 (N - Z.of_nat i) < Z.of_nat fuel →
    invocations (trace (loop fuel (Z.of_nat i) results))
    = Z.of_nat <$> seq i (length items - i).
Proof.
  intros Hall Hc. induction fuel as [|fuel IH]; intros i results Hfuel; [lia|].
  rewrite loop_S. case_bool_decide as Hlt.
  - rewrite (chunk_fulfilled items processor delay outs) by (done || lia). cbn [trace].
    rewrite invocations_app, invocations_chunk_events.
    rewrite slice_chunk by lia. rewrite length_take, length_drop, Nat2Z.id.
    replace (Z.of_nat i + concurrency) with (Z.of_nat (i + Z.to_nat concurrency)) by lia.
    rewrite IH by lia.
    set (c := Z.to_nat concurrency). rewrite fmap_seq_shift.
    destruct (decide (c ≤ length items - i)%nat) as [Hle|Hgt].
    + replace (c `min` (length items - i))%nat with c by lia.
      replace (length items - i)%nat with (c + (length items - (i + c)))%nat by lia.
      rewrite seq_app, fmap_app. done.
    + replace (c `min` (length items - i))%nat with (length items - i)%nat by lia.
      replace (length items - (i + c))%nat with 0%nat by lia.
      by rewrite app_nil_r.
  - simpl. replace (length items - i)%nat with 0%nat by lia. done.
Qed.
End invocation_facts.

Section failure_facts.
Context {A B : Type}.
Variable item_name : A → string.
Variable items : list A.
Variable processor : A → Z → IO B.
Variable concurrency : Z.
Variable delay : Z → nat.

Abbreviation N := (Z.of_nat (length items)).
Abbreviation loop := (loop item_name items processor concurrency delay).
Abbreviation chunk_events := (chunk_events item_name items processor delay).

Lemma loop_terminates :
  1 ≤ concurrency →
  ∀ (fuel : nat) (i : Z) (results : list B),
    0 ≤ i → Z.max 0 (N - i) < Z.of_nat fuel →
    run_status_of (loop fuel i results) ≠ Running.
Proof.
  intros Hc. induction fuel as [|fuel IH]; intros i results Hi Hfuel; [lia|].
  rewrite loop_S. case_bool_decide as Hlt; [|done].
  destruct (Promise_all _ _); cbn [run_status_of]; [|done..]. apply IH; lia.
Qed.

Lemma batch_lookup (i : nat) (k : nat) (item : A) :
  0 ≤ concurrency → items !! k = Some item →
  (i ≤ k)%nat → Z.of_nat k < Z.of_nat i + concurrency →
  (settled <$> batchPromises processor (Z.of_nat i)
                 (slice items (Z.of_nat i) (Z.of_nat i + concurrency))) !! (k - i)%nat
  = Some (settled (processor item (Z.of_nat k))).
Proof.
  intros Hc Hk Hik Hkc. rewrite slice_chunk by lia. unfold batchPromises.
  rewrite list_lookup_fmap, list_lookup_imap, lookup_take_lt by lia.
  rewrite lookup_drop, Nat2Z.id.
  replace (i + (k - i))%nat with k by lia. rewrite Hk. simpl.
  do 3 f_equal. lia.
Qed.

Lemma loop_fail_fast (k : nat) (item : A) (e : Error) :
  1 ≤ concurrency →
  items !! k = Some item → settled (processor item (Z.of_nat k)) = Rejected e →
  ∀ (fuel : nat) (i : nat) (results results' : list B),
    (i ≤ k)%nat → run_status_of (loop fuel (Z.of_nat i) results) ≠ Returned results'.
Proof.
  intros Hc Hk Hrej. induction fuel as [|fuel IH]; intros i results results' Hik; [done|].
  rewrite loop_S. pose proof (lookup_lt_Some _ _ _ Hk).
  rewrite bool_decide_eq_true_2 by lia.
  destruct (Promise_all _ _) as [vs|e'|] eqn:Hall; cbn [run_status_of]; [|done..].
  destruct (decide (Z.of_nat k < Z.of_nat i + concurrency)) as [Hin|Hout].
  - exfalso.
    pose proof (batch_lookup i k item ltac:(lia) Hk Hik Hin) as Hlookup.
    rewrite Hrej in Hlookup.
    eapply Promise_all_Fulfilled_all in Hall as [v Hv]; [|..|exact Hlookup]; [done|].
    rewrite length_fmap. unfold batchPromises. rewrite length_imap.
    apply completion_order_perm.
  - replace (Z.of_nat i + concurrency) with (Z.of_nat (i + Z.to_nat concurrency)) by lia.
    apply IH. lia.
Qed.
End failure_facts.

Lemma completion_order_one (delay : Z → nat) (i : Z) : completion_order delay i 1 = [0%nat].
Proof. apply Permutation_singleton_r. apply completion_order_perm. Qed.

Lemma completion_order_zero (delay : Z → nat) (i : Z) : completion_order delay i 0 = [].
Proof. apply Permutation_nil_r. apply completion_order_perm. Qed.

Section sequential_facts.
Context {A B : Type}.
Variable item_name : A → string.
Variable items : list A.
Variable processor : A → Z → IO B.
Variable delay : Z → nat.

Abbreviation loop1 := (loop item_name items processor 1 delay).
Abbreviation loop0 := (loop item_name items processor 0 delay).

Lemma slice_one (i : nat) (item : A) :
  items !! i = Some item → slice items (Z.of_nat i) (Z.of_nat i + 1) = [item].
Proof.
  intros Hi. rewrite slice_chunk by lia. rewrite Nat2Z.id, (drop_S _ _ _ Hi). done.
Qed.

Lemma batch_one (i : nat) (item : A) :
  settled <$> batchPromises processor (Z.of_nat i) [item]
  = [settled (processor item (Z.of_nat i))].
Proof. unfold batchPromises. simpl. do 3 f_equal. lia. Qed.

Lemma loop_sequential (k : nat) (item : A) (e : Error) :
  items !! k = Some item → settled (processor item (Z.of_nat k)) = Rejected e →
  (∀ (j : nat) item', (j < k)%nat → items !! j = Some item' →
     ∃ v, settled (processor item' (Z.of_nat j)) = Fulfilled v) →
  ∀ (fuel : nat) (i : nat) (results : list B),
    (i ≤ k)%nat → (k - i < fuel)%nat →
    run_status_of (loop1 fuel (Z.of_nat i) results) = Threw e
    ∧ invocations (trace (loop1 fuel (Z.of_nat i) results)) = Z.of_nat <$> seq i (S k - i).
Proof.
  intros Hk Hrej Hbefore. induction fuel as [|fuel IH]; intros i results Hik Hfuel; [lia|].
  rewrite loop_S. pose proof (lookup_lt_Some _ _ _ Hk).
  rewrite bool_decide_eq_true_2 by lia.
  destruct (decide (i = k)) as [->|Hne].
  - rewrite (slice_one k item Hk). cbn [length]. rewrite completion_order_one.
    rewrite batch_one, Hrej.
    change (Promise_all [Rejected e] [0%nat]) with (@Rejected (list B) e).
    cbn [run_status_of trace]. split; [done|].
    rewrite invocations_chunk_events. cbn [length seq fmap list_fmap].
    replace (S k - k)%nat with 1%nat by lia. cbn [seq fmap list_fmap]. f_equal. lia.
  - destruct (lookup_lt_is_Some_2 items i ltac:(lia)) as [item' Hi].
    destruct (Hbefore i item' ltac:(lia) Hi) as [v Hv].
    rewrite (slice_one i item' Hi). cbn [length]. rewrite completion_order_one.
    rewrite batch_one, Hv.
    change (Promise_all [Fulfilled v] [0%nat]) with (Fulfilled [v]).
    cbn [run_status_of trace].
    replace (Z.of_nat i + 1) with (Z.of_nat (S i)) by lia.
    destruct (IH (S i) (results ++ [v])) as [IH1 IH2]; [lia..|].
    split; [done|].
    rewrite invocations_app, invocations_chunk_events, IH2. cbn [length seq fmap list_fmap].
    replace (S k - i)%nat with (S (S k - S i)) by lia. cbn [seq fmap list_fmap app].
    f_equal. lia.
Qed.

Lemma loop_zero_limit :
  items ≠ [] →
  ∀ (fuel : nat) (results : list B),
    run_status_of (loop0 fuel 0 results) = Running
    ∧ invocations (trace (loop0 fuel 0 results)) = [].
Proof.
  intros Hne. assert (0 < Z.of_nat (length items)) by (destruct items; [done | simpl; lia]).
  induction fuel as [|fuel IH]; intros results; [done|].
  rewrite loop_S. rewrite bool_decide_eq_true_2 by lia.
  rewrite (slice_chunk items 0 0) by lia.
  change (take (Z.to_nat 0) (drop (Z.to_nat 0) items)) with (@nil A). cbn [length].
  change (settled <$> batchPromises processor 0 []) with (Fulfilled <$> @nil B).
  rewrite (Promise_all_fulfilled []) by apply completion_order_perm.
  cbn [run_status_of trace]. change (0 + 0) with 0.
  destruct (IH (results ++ [])) as [IH1 IH2].
  split; [done|]. rewrite invocations_app, invocations_chunk_events, IH2. done.
Qed.
End sequential_facts.

Section exact_chunks.
Context {A : Type}.
Variable items : list A.
Variable concurrency : Z.
Hypothesis concurrency_pos : 1 ≤ concurrency.

Lemma chunks_from_lookup (fuel : nat) : ∀ (i j : nat) (batch : list A),
  chunks_from items concurrency fuel (Z.of_nat i) !! j = Some batch →
  batch = take (Z.to_nat concurrency) (drop (i + j * Z.to_nat concurrency) items)
  ∧ (i + j * Z.to_nat concurrency < length items)%nat.
Proof.
  induction fuel as [|fuel IH]; intros i j batch Hj; [done|].
  cbn [chunks_from] in Hj. case_bool_decide as Hlt; [|done].
  destruct j as [|j].
  - simpl in Hj. injection Hj as <-. rewrite slice_chunk by lia.
    rewrite Nat2Z.id. split; [do 2 f_equal|]; lia.
  - simpl in Hj.
    replace (Z.of_nat i + concurrency) with (Z.of_nat (i + Z.to_nat concurrency)) in Hj by lia.
    apply IH in Hj as [-> Hlen]. split; [do 2 f_equal|]; lia.
Qed.
End exact_chunks.

Section console_facts.
Context {A B : Type}.
Variable item_name : A → string.
Variable items : list A.
Variable processor : A → Z → IO B.
Variable concurrency : Z.
Variable delay : Z → nat.
Hypothesis processor_silent : ∀ item globalIndex, console (processor item globalIndex) = [].

Abbreviation N := (Z.of_nat (length items)).
Abbreviation loop := (loop item_name items processor concurrency delay).
Abbreviation chunk_events := (chunk_events item_name items processor delay).

Lemma console_of_app (tr1 tr2 : list (event A)) :
  console_of (tr1 ++ tr2) = console_of tr1 ++ console_of tr2.
Proof. apply omap_app. Qed.

Lemma settle_events_silent (i : Z) (batch : list A) (order : list nat) :
  console_of (settle_events (A:=A) i (batchPromises processor i batch) order) = [].
Proof.
  unfold settle_events. induction order as [|k order IH]; [done|].
  rewrite fmap_cons.
  change (console_of (mjoin (?l :: ?ls))) with (console_of (l ++ mjoin ls)).
  rewrite console_of_app, IH, app_nil_r. unfold settle_event, batchPromises.
  rewrite list_lookup_imap. destruct (batch !! k) as [item|]; [|done]. simpl.
  rewrite processor_silent. by destruct (settled _).
Qed.

Lemma console_chunk_events (i : Z) (batch : list A) :
  console_of (chunk_events i batch)
  = imap (λ index item, progress_line item_name items (i + Z.of_nat index) item) batch.
Proof.
  unfold chunk_events, launch_events.
  change (console_of (EChunk i batch :: ?tr)) with (console_of tr).
  rewrite console_of_app, settle_events_silent, app_nil_r.
  apply (invocations_launch_gen _ (λ index, i + Z.of_nat index)). done.
Qed.

Lemma loop_console outs :
  all_fulfilled processor items outs → 1 ≤ concurrency →
  ∀ (fuel : nat) (i : nat) (results : list B),
    Z.max 0 (N - Z.of_nat i) < Z.of_nat fuel →
    console_of (trace (loop fuel (Z.of_nat i) results))
    = imap (λ index item, progress_line item_name items (Z.of_nat (i + index)) item)
        (drop i items).
Proof.
  intros Hall Hc. induction fuel as [|fuel IH]; intros i results Hfuel; [lia|].
  rewrite loop_S. case_bool_decide as Hlt.
  - rewrite (chunk_fulfilled items processor delay outs) by (done || lia). cbn [trace].
    rewrite console_of_app, console_chunk_events.
    rewrite slice_chunk by lia. rewrite Nat2Z.id.
    replace (Z.of_nat i + concurrency) with (Z.of_nat (i + Z.to_nat concurrency)) by lia.
    rewrite IH by lia. set (c := Z.to_nat concurrency).
    rewrite <- (take_drop c (drop i items)) at 2. rewrite imap_app, drop_drop. f_equal.
    + apply imap_ext. intros index item _. f_equal. lia.
    + rewrite length_take, length_drop.
      destruct (decide (c ≤ length items - i)%nat) as [Hle|Hgt].
      * apply imap_ext. intros index item _. simpl. f_equal. lia.
      * by rewrite drop_ge by lia.
  - simpl. rewrite drop_ge by lia. done.
Qed.
End console_facts.

(** X1. With no item, [processConcurrently] returns the empty list at
    once, whatever the limit (zero and negative limits included): no chunk
    is taken, the processor is not called, nothing is printed. *)
Theorem processConcurrently_empty_input {A B} (item_name : A → string)
    (processor : A → Z → IO B) (concurrency : Z) (delay : Z → nat) (fuel : nat) :
  processConcurrently item_name [] processor concurrency delay (S fuel)
  = mkRun (Returned []) [].
Proof. done. Qed.

(** X2. When every call fulfils and the limit is at least 1, the
    processor is called exactly once per item, with the index of the item,
    and the calls are made in input order: with the indices 0, 1, ...,
    N-1. *)
Theorem processConcurrently_calls_each_item_once {A B} (item_name : A → string)
    (items : list A) (processor : A → Z → IO B) (concurrency : Z) (delay : Z → nat)
    (outs : list B) (fuel : nat) :
  1 ≤ concurrency →
  all_fulfilled processor items outs →
  (length items < fuel)%nat →
  invocations (trace (processConcurrently item_name items processor concurrency delay fuel))
  = Z.of_nat <$> seq 0 (length items).
Proof.
  intros Hc Hall Hfuel. unfold processConcurrently.
  rewrite (loop_invocations item_name items processor concurrency delay outs Hall Hc fuel 0)
    by (simpl; lia).
  by rewrite Nat.sub_0_r.
Qed.

Lemma processConcurrently_calls_each_item_once_witness :
  1 ≤ 2
  ∧ all_fulfilled sample_processor sample_items sample_outs
  ∧ (length sample_items < 6)%nat
  ∧ invocations (trace (processConcurrently id sample_items sample_processor 2 sample_delay 6))
    = [0; 1; 2; 3; 4].
Proof.
  split; [lia|]. split; [reflexivity|]. split; [simpl; lia|].
  apply (processConcurrently_calls_each_item_once id sample_items sample_processor 2
           sample_delay sample_outs 6); [lia | reflexivity | simpl; lia].
Defined.

(** X3. When every call fulfils, the limit is at least 1 and the
    processor itself prints nothing, a run prints exactly one line per
    item, in input order: [Processing p/N: name] with the 1-based position
    p of the item, the number N of items and the name of the item. *)
Theorem processConcurrently_progress_lines {A B} (item_name : A → string)
    (items : list A) (processor : A → Z → IO B) (concurrency : Z) (delay : Z → nat)
    (outs : list B) (fuel : nat) :
  (∀ item globalIndex, console (processor item globalIndex) = []) →
  1 ≤ concurrency →
  all_fulfilled processor items outs →
  (length items < fuel)%nat →
  console_of (trace (processConcurrently item_name items processor concurrency delay fuel))
  = imap (λ index item,
            Log ("Processing " +:+ pretty (Z.of_nat index + 1) +:+ "/" +:+
                 pretty (Z.of_nat (length items)) +:+ ": " +:+ item_name item)) items.
Proof.
  intros Hsilent Hc Hall Hfuel. unfold processConcurrently.
  rewrite (loop_console item_name items processor concurrency delay Hsilent outs Hall Hc fuel 0)
    by (simpl; lia).
  by rewrite drop_0.
Qed.

Lemma processConcurrently_progress_lines_witness :
  (∀ item globalIndex, console (sample_processor item globalIndex) = [])
  ∧ 1 ≤ 2
  ∧ all_fulfilled sample_processor sample_items sample_outs
  ∧ (length sample_items < 6)%nat
  ∧ console_of (trace (processConcurrently id sample_items sample_processor 2 sample_delay 6))
    = [Log "Processing 1/5: alpha"; Log "Processing 2/5: beta"; Log "Processing 3/5: gamma";
       Log "Processing 4/5: delta"; Log "Processing 5/5: epsilon"].
Proof.
  split; [reflexivity|]. split; [lia|]. split; [reflexivity|]. split; [simpl; lia|].
  apply (processConcurrently_progress_lines id sample_items sample_processor 2
           sample_delay sample_outs 6); [reflexivity | lia | reflexivity | simpl; lia].
Defined.

(** X4. When every call fulfils and the limit C is at least 1, the j-th
    chunk of a run is exactly the C items that start at position j * C, or
    those that are left of them at the end of the list, and it is never
    empty: every chunk but the last has exactly C items. *)
Theorem processConcurrently_chunk_contents {A B} (item_name : A → string)
    (items : list A) (processor : A → Z → IO B) (concurrency : Z) (delay : Z → nat)
    (outs : list B) (fuel : nat) (j : nat) (batch : list A) :
  1 ≤ concurrency →
  all_fulfilled processor items outs →
  chunks_of (trace (processConcurrently item_name items processor concurrency delay fuel)) !! j
    = Some batch →
  batch = take (Z.to_nat concurrency) (drop (j * Z.to_nat concurrency) items)
  ∧ batch ≠ []
  ∧ length batch = (Z.to_nat concurrency `min` (length items - j * Z.to_nat concurrency))%nat.
Proof.
  intros Hc Hall Hj. unfold processConcurrently in Hj.
  rewrite (loop_chunks item_name items processor concurrency delay outs) in Hj by (done || lia).
  apply (chunks_from_lookup items concurrency Hc fuel 0 j batch) in Hj as [-> Hlt].
  simpl in Hlt. simpl. split; [done|].
  assert (length (take (Z.to_nat concurrency) (drop (j * Z.to_nat concurrency) items))
          = (Z.to_nat concurrency `min` (length items - j * Z.to_nat concurrency))%nat) as Hlen
    by (by rewrite length_take, length_drop).
  split; [|done]. intros Hnil. rewrite Hnil in Hlen. simpl in Hlen. lia.
Qed.

Lemma processConcurrently_chunk_contents_witness :
  1 ≤ 2
  ∧ all_fulfilled sample_processor sample_items sample_outs
  ∧ chunks_of (trace (processConcurrently id sample_items sample_processor 2 sample_delay 6))
      !! 2%nat = Some ["epsilon"]
  ∧ ["epsilon"] = take (Z.to_nat 2) (drop (2 * Z.to_nat 2) sample_items).
Proof.
  split; [lia|]. split; [reflexivity|]. split; [reflexivity|].
  apply (processConcurrently_chunk_contents id sample_items sample_processor 2 sample_delay
           sample_outs 6 2 ["epsilon"]); [lia | reflexivity | reflexivity].
Defined.

(** X5. With a limit of at least 1 the loop of [processConcurrently] ends
    after at most N iterations, whatever the processor does: a run is
    never still looping once it has been given more than N steps. *)
Theorem processConcurrently_loop_ends {A B} (item_name : A → string)
    (items : list A) (processor : A → Z → IO B) (concurrency : Z) (delay : Z → nat)
    (fuel : nat) :
  1 ≤ concurrency →
  (length items < fuel)%nat →
  run_status_of (processConcurrently item_name items processor concurrency delay fuel)
    ≠ Running.
Proof.
  intros Hc Hfuel. apply loop_terminates; lia.
Qed.

Lemma processConcurrently_loop_ends_witness :
  1 ≤ 2
  ∧ (length sample_items < 6)%nat
  ∧ run_status_of (processConcurrently id sample_items failing_processor 2 sample_delay 6)
    ≠ Running.
Proof.
  split; [lia|]. split; [simpl; lia|].
  apply (processConcurrently_loop_ends id sample_items failing_processor 2 sample_delay 6);
    [lia | simpl; lia].
Defined.

(** X6. A failure of the processor is never swallowed: with a limit of at
    least 1, if the call for some item rejects, no run returns a result
    list, also not the results of the calls that fulfilled. *)
Theorem processConcurrently_rejection_is_not_swallowed {A B} (item_name : A → string)
    (items : list A) (processor : A → Z → IO B) (concurrency : Z) (delay : Z → nat)
    (fuel : nat) (k : nat) (item : A) (e : Error) (results : list B) :
  1 ≤ concurrency →
  items !! k = Some item →
  settled (processor item (Z.of_nat k)) = Rejected e →
  run_status_of (processConcurrently item_name items processor concurrency delay fuel)
    ≠ Returned results.
Proof.
  intros Hc Hk Hrej.
  apply (loop_fail_fast item_name items processor concurrency delay k item e Hc Hk Hrej fuel 0).
  lia.
Qed.

Lemma processConcurrently_rejection_is_not_swallowed_witness :
  1 ≤ 2
  ∧ sample_items !! 2%nat = Some "gamma"
  ∧ settled (failing_processor "gamma" 2) = Rejected (mkError "boom" None)
  ∧ run_status_of (processConcurrently id sample_items failing_processor 2 sample_delay 6)
    ≠ Returned sample_outs.
Proof.
  split; [lia|]. split; [reflexivity|]. split; [reflexivity|].
  apply (processConcurrently_rejection_is_not_swallowed id sample_items failing_processor 2
           sample_delay 6 2 "gamma" (mkError "boom" None) sample_outs);
    [lia | reflexivity | reflexivity].
Defined.

(** X7. With the limit 1 the items are processed one after the other and
    the run stops at the first failure: if the calls for the items before
    position k fulfil and the call for the item at position k rejects with
    [e], the run throws [e], and the processor has been called for the
    items 0 to k and for no later item. *)
Theorem processConcurrently_sequential_stops_at_first_failure {A B}
    (item_name : A → string) (items : list A) (processor : A → Z → IO B)
    (delay : Z → nat) (fuel : nat) (k : nat) (item : A) (e : Error) :
  items !! k = Some item →
  settled (processor item (Z.of_nat k)) = Rejected e →
  (∀ (j : nat) item', (j < k)%nat → items !! j = Some item' →
     ∃ v, settled (processor item' (Z.of_nat j)) = Fulfilled v) →
  (k < fuel)%nat →
  run_status_of (processConcurrently item_name items processor 1 delay fuel) = Threw e
  ∧ invocations (trace (processConcurrently item_name items processor 1 delay fuel))
    = Z.of_nat <$> seq 0 (S k).
Proof.
  intros Hk Hrej Hbefore Hfuel. unfold processConcurrently.
  destruct (loop_sequential item_name items processor delay k item e Hk Hrej Hbefore
              fuel 0%nat [] ltac:(lia) ltac:(lia)) as [Hstatus Hcalls].
  split; [exact Hstatus | exact Hcalls].
Qed.

Lemma processConcurrently_sequential_stops_at_first_failure_witness :
  sample_items !! 2%nat = Some "gamma"
  ∧ settled (failing_processor "gamma" 2) = Rejected (mkError "boom" None)
  ∧ (2 < 6)%nat
  ∧ run_status_of (processConcurrently id sample_items failing_processor 1 sample_delay 6)
    = Threw (mkError "boom" None)
  ∧ invocations (trace (processConcurrently id sample_items failing_processor 1 sample_delay 6))
    = [0; 1; 2].
Proof.
  split; [reflexivity|]. split; [reflexivity|]. split; [lia|].
  apply (processConcurrently_sequential_stops_at_first_failure id sample_items
           failing_processor sample_delay 6 2 "gamma" (mkError "boom" None));
    [reflexivity | reflexivity | | lia].
  intros j item' Hj Hitem. destruct j as [|[|j]]; [..|lia];
    injection Hitem as <-; eexists; reflexivity.
Defined.

(** X8. With the limit 0 and a non-empty list the processor is never
    called: every chunk is empty, and the run neither returns nor throws,
    whatever the processor would do. *)
Theorem processConcurrently_zero_limit_makes_no_call {A B} (item_name : A → string)
    (items : list A) (processor : A → Z → IO B) (delay : Z → nat) (fuel : nat) :
  items ≠ [] →
  run_status_of (processConcurrently item_name items processor 0 delay fuel) = Running
  ∧ invocations (trace (processConcurrently item_name items processor 0 delay fuel)) = [].
Proof.
  intros Hne. by apply loop_zero_limit.
Qed.

Lemma processConcurrently_zero_limit_makes_no_call_witness :
  sample_items ≠ []
  ∧ run_status_of (processConcurrently id sample_items failing_processor 0 sample_delay 40)
    = Running
  ∧ invocations (trace (processConcurrently id sample_items failing_processor 0 sample_delay 40))
    = [].
Proof.
  split; [discriminate|].
  apply (processConcurrently_zero_limit_makes_no_call id sample_items failing_processor
           sample_delay 40). discriminate.
Defined.

(** ** The enricher, the listing and the report, further *)

(** X9. [getRepoCommitInfo] never rejects, whatever the service does, and
    as the program is configured what it delivers tells whether all went
    well: either the count is -1, nothing was printed, no remote step
    failed and the latest commit does not lack a committer; or the record
    is the zero record, exactly one warning was printed, and a remote step
    failed or the latest commit has no committer. *)
Theorem getRepoCommitInfo_zero_means_failure (octokit : Octokit) (owner repo : string) :
  (∀ e, settled (getRepoCommitInfo octokit owner repo) ≠ Rejected e)
  ∧ ∀ info, settled (getRepoCommitInfo octokit owner repo) = Fulfilled info →
      (CommitInfo.commitCount info = -1
       ∧ console (getRepoCommitInfo octokit owner repo) = []
       ∧ ¬ (∃ e, enrichment_fails FETCH_COMMIT_COUNT octokit owner repo e)
       ∧ ¬ latest_commit_without_committer octokit owner repo)
      ∨ (info = zero_record
         ∧ (∃ text, console (getRepoCommitInfo octokit owner repo) = [Warn text])
         ∧ ((∃ e, enrichment_fails FETCH_COMMIT_COUNT octokit owner repo e)
            ∨ latest_commit_without_committer octokit owner repo)).
Proof.
  split; [intros e; apply getRepoCommitInfo_never_rejects|].
  intros info. unfold getRepoCommitInfo. rewrite getRepoCommitInfo_cases. cbv zeta.
  destruct (repos_get octokit owner repo) as [repoInfo|e|] eqn:Hget; [| |done].
  2:{ intros [= <-]. right. split; [done|]. split; [by eexists|]. left.
      exists e. by apply default_branch_fails. }
  destruct (repos_listCommits octokit owner repo (Repo.default_branch (data repoInfo)) 1)
    as [commits|e|] eqn:Hlist; [| |done].
  2:{ intros [= <-]. right. split; [done|]. split; [by eexists|]. left.
      exists e. by eapply latest_commit_fails. }
  assert (∀ e, ¬ enrichment_fails FETCH_COMMIT_COUNT octokit owner repo e) as Hsteps.
  { intros e [Hfail | repoInfo' Hget' Hlist' | repoInfo' commits' Hflag _ _ _].
    - congruence.
    - rewrite Hget in Hget'. injection Hget' as <-. congruence.
    - discriminate. }
  cbn [FETCH_COMMIT_COUNT].
  destruct (data commits) as [|first rest] eqn:Hdata.
  - rewrite bool_decide_eq_false_2 by (simpl; lia). intros [= <-]. left.
    split; [done|]. split; [done|]. split; [by intros [e He%Hsteps]|].
    intros (repoInfo' & commits' & first' & Hget' & Hlist' & Hhead & _).
    rewrite Hget in Hget'. injection Hget' as <-.
    rewrite Hlist in Hlist'. injection Hlist' as <-. by rewrite Hdata in Hhead.
  - rewrite bool_decide_eq_true_2 by (rewrite length_cons; lia).
    unfold committer_date. cbn [lookup list_lookup].
    destruct (Commit.committer (Commit.commit first)) as [committer|] eqn:Hfirst.
    + intros [= <-]. left.
      split; [done|]. split; [done|]. split; [by intros [e He%Hsteps]|].
      intros (repoInfo' & commits' & first' & Hget' & Hlist' & Hhead & Hnull).
      rewrite Hget in Hget'. injection Hget' as <-.
      rewrite Hlist in Hlist'. injection Hlist' as <-.
      rewrite Hdata in Hhead. injection Hhead as <-. congruence.
    + intros [= <-]. right. split; [done|]. split; [by eexists|]. right.
      exists repoInfo, commits, first. by rewrite Hdata.
Qed.

(** X10. [getUserRepos] fulfils exactly when the authenticated user is
    found and the listing chosen for it fulfils, and then it delivers the
    listing unchanged, prints no error or warning, and ends with the line
    [Found n repositories], n being the length of the listing. *)
Theorem getUserRepos_fulfils_iff (octokit : Octokit) (username : string)
    (repos : list Repo.t) :
  (settled (getUserRepos octokit username) = Fulfilled repos
   ↔ ∃ authenticatedUser,
       users_getAuthenticated octokit = Fulfilled authenticatedUser
       ∧ paginate_repos octokit
           (listing_request (isOwnRepos authenticatedUser username) username)
         = Fulfilled repos)
  ∧ (settled (getUserRepos octokit username) = Fulfilled repos →
     Forall (λ line, ∃ text, line = Log text) (console (getUserRepos octokit username))
     ∧ last (console (getUserRepos octokit username))
       = Some (Log ("Found " +:+ pretty (Z.of_nat (length repos)) +:+ " repositories"))).
Proof.
  destruct (users_getAuthenticated octokit) as [authenticatedUser|e|] eqn:Hauth.
  - pose proof (getUserRepos_authenticated octokit username authenticatedUser Hauth) as H.
    simpl in H. rewrite H.
    destruct (paginate_repos octokit _) as [repos'|e|] eqn:Hlist; simpl.
    + split.
      * split; [intros [= <-]; by exists authenticatedUser|].
        intros (u & [= <-] & Hu). congruence.
      * intros [= <-]. split; [|done].
        repeat constructor; [by eexists| |by eexists].
        unfold mode_line. destruct (isOwnRepos _ _); by eexists.
    + split; [|done]. split; [done|]. intros (u & [= <-] & Hu). congruence.
    + split; [|done]. split; [done|]. intros (u & [= <-] & Hu). congruence.
  - rewrite (getUserRepos_unauthenticated octokit username e Hauth). simpl.
    split; [|done]. split; [done|]. by intros (u & ? & _).
  - assert (settled (getUserRepos octokit username) = Pending) as Hpending.
    { unfold getUserRepos, try_catch, mbind, IO_bind, bind, await. simpl.
      rewrite Hauth. done. }
    rewrite Hpending. split; [|done]. split; [done|]. by intros (u & ? & _).
Qed.

Section composition_facts.
Variable octokit : Octokit.
Variable delay : Z → nat.
Variable username : string.

Lemma processRepositories_fulfilled (repos : list Repo.t) :
  responsive octokit →
  settled (getUserRepos octokit username) = Fulfilled repos →
  settled (processRepositories octokit delay username)
  = Fulfilled ((λ repo, repoData repo (enrichment octokit repo)) <$> repos).
Proof.
  intros Hresp Hrepos.
  rewrite (processRepositories_settled octokit delay username repos Hrepos).
  unfold promise_of_run. cbn [settled].
  rewrite (processConcurrently_returned Repo.name repos (processRepo octokit)
             CONCURRENCY_LIMIT delay
             ((λ repo, repoData repo (enrichment octokit repo)) <$> repos)
             (S (length repos)));
    [done | unfold CONCURRENCY_LIMIT; lia | by apply processRepo_all_fulfilled | lia].
Qed.

Lemma enrichment_delivered (repo : Repo.t) :
  responsive octokit →
  settled (getRepoCommitInfo octokit (User.login (Repo.owner repo)) (Repo.name repo))
  = Fulfilled (enrichment octokit repo).
Proof.
  intros Hresp. unfold enrichment, getRepoCommitInfo.
  destruct (getRepoCommitInfo_settles FETCH_COMMIT_COUNT octokit
              (User.login (Repo.owner repo)) (Repo.name repo) Hresp) as [info ->].
  done.
Qed.
End composition_facts.

(** X11. When the listing delivers the repositories and the service
    answers every request of the enricher, [processRepositories] delivers
    one record per repository, in the order of the listing, and the record
    of a repository is made of the static fields of that repository and of
    what [getRepoCommitInfo] delivers for that same repository: the names
    of the records are the names of the repositories, in order. *)
Theorem processRepositories_records (octokit : Octokit) (delay : Z → nat)
    (username : string) (repos : list Repo.t) :
  responsive octokit →
  settled (getUserRepos octokit username) = Fulfilled repos →
  ∃ records,
    settled (processRepositories octokit delay username) = Fulfilled records
    ∧ Forall2 (λ repo record,
                 ∃ info,
                   settled (getRepoCommitInfo octokit (User.login (Repo.owner repo))
                              (Repo.name repo)) = Fulfilled info
                   ∧ record = repoData repo info) repos records
    ∧ Report.name <$> records = Repo.name <$> repos.
Proof.
  intros Hresp Hrepos.
  exists ((λ repo, repoData repo (enrichment octokit repo)) <$> repos).
  split; [by apply processRepositories_fulfilled|]. split.
  - apply Forall2_fmap_r, Forall_Forall2_diag, Forall_forall. intros repo _.
    exists (enrichment octokit repo). split; [by apply enrichment_delivered | done].
  - rewrite <- list_fmap_compose. by apply list_fmap_ext.
Qed.

(** X12. When the listing fails, [processRepositories] fails with the
    same error and starts no enrichment: it prints what [getUserRepos]
    printed and nothing more. *)
Theorem processRepositories_listing_failure (octokit : Octokit) (delay : Z → nat)
    (username : string) (e : Error) :
  settled (getUserRepos octokit username) = Rejected e →
  processRepositories octokit delay username
  = mkIO (console (getUserRepos octokit username)) (Rejected e).
Proof.
  intros Hrepos. unfold processRepositories, mbind, IO_bind, bind. by rewrite Hrepos.
Qed.

(** X13. In a record, the language is never empty ([N/A] stands for a
    repository without language), a description is never null, and
    [forkedFrom] is filled only for a fork whose parent is known, with the
    full name of that parent. *)
Theorem repoData_derived_fields (repo : Repo.t) (info : CommitInfo.t) :
  Report.language (repoData repo info) ≠ ""
  ∧ (Repo.language repo = None → Report.language (repoData repo info) = "N/A")
  ∧ (Repo.description repo = None → Report.description (repoData repo info) = "")
  ∧ (Report.forkedFrom (repoData repo info) ≠ "" →
     Repo.fork repo = true
     ∧ ∃ parent, Repo.parent repo = Some parent
                 ∧ Report.forkedFrom (repoData repo info) = Repo.parent_full_name parent).
Proof.
  unfold repoData. cbn [Report.language Report.description Report.forkedFrom].
  split; [|split; [|split]].
  - destruct (Repo.language repo) as [[|c s]|]; done.
  - by intros ->.
  - by intros ->.
  - destruct (Repo.fork repo), (Repo.parent repo) as [parent|]; try done.
    intros _. split; [done|]. by exists parent.
Qed.

(** ** The program, further *)

(** X14. Without a user name, missing or empty, [run] prints how to call
    the program and exits with code 1; the service, the CSV writer, the
    clock and the output file play no part. *)
Theorem run_without_username (octokit : Octokit) (csv : CsvWriter) (delay : Z → nat)
    (now : Date.t) (username outputFile : option string) :
  truthy username = None →
  run octokit csv delay now username outputFile
  = mkProcess [Err "Please provide a GitHub username";
               Log "Usage: node index.js <username> [output-file.csv]"] (Some 1).
Proof.
  intros Hname. unfold run. by rewrite Hname.
Qed.

Section run_facts.
Variable octokit : Octokit.
Variable csv : CsvWriter.
Variable delay : Z → nat.
Variable now : Date.t.
Variable username : string.
Variable outputFile : option string.

Lemma bind_fulfilled {X Y} (m : IO X) (f : X → IO Y) (x : X) :
  settled m = Fulfilled x → m ≫= f = mkIO (console m ++ console (f x)) (settled (f x)).
Proof. intros Hm. unfold mbind, IO_bind, bind. by rewrite Hm. Qed.

Lemma summary_printed (own : bool) (repositories : list Report.t) (path : string) :
  settled (summary own username repositories path) = Fulfilled tt
  ∧ last (console (summary own username repositories path))
    = Some (Log ("Output saved to: " +:+ path))
  ∧ Log ("Total repositories: " +:+ pretty (Z.of_nat (length repositories)))
    ∈ console (summary own username repositories path).
Proof.
  unfold summary, mbind, IO_bind, bind. destruct own; simpl;
    (split; [done|]); (split; [done|]); line_printed.
Qed.

Lemma run_body_after_listing (authenticatedUser : Response User.t) (repos : list Repo.t) :
  responsive octokit →
  users_getAuthenticated octokit = Fulfilled authenticatedUser →
  paginate_repos octokit (listing_request (isOwnRepos authenticatedUser username) username)
    = Fulfilled repos →
  let records := (λ repo, repoData repo (enrichment octokit repo)) <$> repos in
  let path := outputPath now username outputFile in
  let export :=
    generateCSV csv records path ≫= λ _,
      summary (isOwnRepos authenticatedUser username) username records path in
  ∃ before,
    run_body octokit csv delay now username outputFile
    = mkIO (before ++ console export) (settled export).
Proof.
  intros Hresp Hauth Hlist records path export.
  assert (settled (getUserRepos octokit username) = Fulfilled repos) as Hrepos.
  { pose proof (getUserRepos_authenticated octokit username authenticatedUser Hauth) as H.
    simpl in H. rewrite Hlist in H. by rewrite H. }
  pose proof (processRepositories_fulfilled octokit delay username repos Hresp Hrepos)
    as Hrecords.
  exists (Log "Starting GitHub repository analysis..."
            :: console (processRepositories octokit delay username)).
  unfold run_body. fold path.
  rewrite (bind_fulfilled (console_log _) _ tt) by done.
  rewrite (bind_fulfilled (await (users_getAuthenticated octokit)) _ authenticatedUser)
    by exact Hauth.
  rewrite (bind_fulfilled (processRepositories octokit delay username) _ records) by exact Hrecords.
  done.
Qed.

Lemma generateCSV_written (records : list Report.t) (path : string) :
  writeRecords csv path csv_header records = Fulfilled tt →
  generateCSV csv records path = mkIO [Log ("CSV file generated: " +:+ path)] (Fulfilled tt).
Proof.
  intros Hcsv. unfold generateCSV.
  rewrite (bind_fulfilled (await _) _ tt) by exact Hcsv. done.
Qed.

Lemma generateCSV_failed (records : list Report.t) (path : string) (e : Error) :
  writeRecords csv path csv_header records = Rejected e →
  generateCSV csv records path = mkIO [] (Rejected e).
Proof.
  intros Hcsv. unfold generateCSV, mbind, IO_bind, bind, await. simpl. by rewrite Hcsv.
Qed.
End run_facts.

(** X15. A run ends well although enrichments fail: when a user name is
    given, the authenticated user and the listing are delivered, the
    service answers every request of the enricher (with a result or with
    an error) and the CSV writer accepts the records, [run] exits with
    code 0, prints the total number of repositories of the listing, and
    its last line names the output path. *)
Theorem run_succeeds (octokit : Octokit) (csv : CsvWriter) (delay : Z → nat)
    (now : Date.t) (username : string) (outputFile : option string)
    (authenticatedUser : Response User.t) (repos : list Repo.t) :
  username ≠ "" →
  responsive octokit →
  users_getAuthenticated octokit = Fulfilled authenticatedUser →
  paginate_repos octokit (listing_request (isOwnRepos authenticatedUser username) username)
    = Fulfilled repos →
  csv_writable csv →
  let p := run octokit csv delay now (Some username) outputFile in
  exit_code p = Some 0
  ∧ last (output p) = Some (Log ("Output saved to: " +:+ outputPath now username outputFile))
  ∧ Log ("Total repositories: " +:+ pretty (Z.of_nat (length repos))) ∈ output p.
Proof.
  intros Hname Hresp Hauth Hlist Hcsv p. subst p.
  destruct (run_body_after_listing octokit csv delay now username outputFile
              authenticatedUser repos Hresp Hauth Hlist) as [before Hbody].
  cbv zeta in Hbody.
  set (records := (λ repo, repoData repo (enrichment octokit repo)) <$> repos) in *.
  set (path := outputPath now username outputFile) in *.
  destruct (summary_printed username (isOwnRepos authenticatedUser username) records path)
    as (Hsettled & Hlast & Htotal).
  rewrite (generateCSV_written csv records path (Hcsv _ _ _)) in Hbody.
  rewrite (bind_fulfilled (mkIO _ _) _ tt) in Hbody by done.
  cbn [console settled] in Hbody. rewrite Hsettled in Hbody.
  unfold run. destruct username as [|c rest] eqn:Husername; [done|]. cbn [truthy].
  rewrite <- Husername in *. rewrite Hbody. cbn [settled console exit_code output].
  split; [done|]. split.
  - rewrite !app_assoc, last_app, Hlast. done.
  - subst records. rewrite length_fmap in Htotal.
    apply elem_of_app. right. apply elem_of_app. right. exact Htotal.
Qed.

(** X16. When the records cannot be written, the run fails: with the
    listing delivered and the enrichment answered as before, if the CSV
    writer rejects with [e], [run] prints [Application error:] with the
    message of [e] as its last line and exits with code 1. *)
Theorem run_csv_failure (octokit : Octokit) (csv : CsvWriter) (delay : Z → nat)
    (now : Date.t) (username : string) (outputFile : option string)
    (authenticatedUser : Response User.t) (repos : list Repo.t) (e : Error) :
  username ≠ "" →
  responsive octokit →
  users_getAuthenticated octokit = Fulfilled authenticatedUser →
  paginate_repos octokit (listing_request (isOwnRepos authenticatedUser username) username)
    = Fulfilled repos →
  (∀ path header records, writeRecords csv path header records = Rejected e) →
  let p := run octokit csv delay now (Some username) outputFile in
  exit_code p = Some 1
  ∧ last (output p) = Some (Err ("Application error: " +:+ message e)).
Proof.
  intros Hname Hresp Hauth Hlist Hcsv p. subst p.
  destruct (run_body_after_listing octokit csv delay now username outputFile
              authenticatedUser repos Hresp Hauth Hlist) as [before Hbody].
  cbv zeta in Hbody.
  set (records := (λ repo, repoData repo (enrichment octokit repo)) <$> repos) in *.
  set (path := outputPath now username outputFile) in *.
  rewrite (generateCSV_failed csv records path e (Hcsv _ _ _)) in Hbody.
  change (mkIO [] (Rejected e) ≫= _) with (mkIO (A:=unit) [] (Rejected e)) in Hbody.
  cbn [console settled] in Hbody. rewrite app_nil_r in Hbody.
  unfold run. destruct username as [|c rest] eqn:Husername; [done|]. cbn [truthy].
  rewrite <- Husername in *. rewrite Hbody. cbn [settled console exit_code output].
  split; [done|]. by rewrite last_snoc.
Qed.

Lemma replace_colon_dot_clean (s : string) :
  Forall (λ c, c ≠ ":"%char ∧ c ≠ "."%char) (chars (replace_colon_dot s)).
Proof.
  unfold chars. induction s as [|c s IH]; [constructor|].
  cbn [replace_colon_dot String.list_ascii_of_string]. constructor; [|done].
  unfold is_colon_or_dot.
  destruct (bool_decide (c = ":"%char)) eqn:Hcolon; [done|].
  destruct (bool_decide (c = "."%char)) eqn:Hdot; [done|].
  apply bool_decide_eq_false in Hcolon, Hdot. done.
Qed.

(** X17. Whatever the date, years outside 0..9999 included, the timestamp
    put in the default file name has at most 19 characters and contains
    neither a colon nor a dot. *)
Theorem timestamp_has_no_colon_or_dot (now : Date.t) :
  Forall (λ c, c ≠ ":"%char ∧ c ≠ "."%char) (chars (timestamp now))
  ∧ (length (chars (timestamp now)) ≤ 19)%nat.
Proof.
  unfold timestamp, str_slice, chars.
  rewrite String.list_ascii_of_string_of_list_ascii.
  rewrite (slice_chunk _ 0 19) by lia. split.
  - apply Forall_take, Forall_drop, replace_colon_dot_clean.
  - rewrite length_take. lia.
Qed.

(** ** The client *)

(** X18. [initializeClient] builds the client with a token [t] exactly
    when [t] is not empty and is either the value of [GITHUB_TOKEN], or,
    [GITHUB_TOKEN] being unset or empty, the [github_token] of the
    credentials file: the environment goes first, and the client is never
    built with an empty token. *)
Theorem initializeClient_token (GITHUB_TOKEN : option string) (file : credentials_file)
    (t : string) :
  init_result_of (initializeClient GITHUB_TOKEN file) = ClientReady t
  ↔ t ≠ ""
    ∧ (GITHUB_TOKEN = Some t
       ∨ (truthy GITHUB_TOKEN = None ∧ file = ParsedFile (Some t))).
Proof.
  unfold initializeClient, token_from_file.
  destruct GITHUB_TOKEN as [[|c s]|]; cbn [truthy].
  2:{ split; [intros [= <-]; (split; [done | by left])|].
      intros [_ [[= <-] | [[=] _]]]. done. }
  all: destruct file as [|error|[[|c s]|]]; cbn [truthy init_result_of];
    (split; [intros [=]; subst; (split; [done | by right])
            | intros [Ht [[=] | [_ [=]]]]; subst; done]).
Qed.

(** X19. What [initializeClient] prints. When it builds the client it
    prints the success line and nothing else. Otherwise it exits with code
    1 after the three lines that tell how to provide a token, preceded by
    a warning exactly when the credentials file was looked at and could
    not be read or parsed; a broken file never makes it crash. *)
Theorem initializeClient_output (GITHUB_TOKEN : option string) (file : credentials_file) :
  match init_result_of (initializeClient GITHUB_TOKEN file) with
  | ClientReady _ =>
      init_output (initializeClient GITHUB_TOKEN file)
      = [Log "GitHub client initialized successfully"]
  | InitExit code =>
      code = 1
      ∧ truthy GITHUB_TOKEN = None
      ∧ init_output (initializeClient GITHUB_TOKEN file)
        = match file with
          | BrokenFile error =>
              Warn ("Could not read credentials file: " +:+ message error) :: token_help
          | _ => token_help
          end
  end.
Proof.
  unfold initializeClient, token_from_file.
  destruct GITHUB_TOKEN as [[|c s]|]; cbn [truthy]; [|done|];
    destruct file as [|error|[[|c s]|]]; done.
Qed.

(** X20. Without a usable token nothing is started: when [GITHUB_TOKEN]
    is unset or empty and the credentials file gives no non-empty token,
    the program exits with code 1 having printed only what
    [initializeClient] prints; no client is built, so no request is made,
    and the arguments are not looked at. *)
Theorem main_without_credential (GITHUB_TOKEN : option string) (file : credentials_file)
    (connect : string → Octokit) (csv : CsvWriter) (delay : Z → nat) (now : Date.t)
    (argv : list string) :
  truthy GITHUB_TOKEN = None →
  truthy (token_from_file file).2 = None →
  main GITHUB_TOKEN file connect csv delay now argv
  = mkProcess ((token_from_file file).1 ++ token_help) (Some 1).
Proof.
  intros Henv Hfile. unfold main, initializeClient. rewrite Henv.
  destruct (token_from_file file) as [warnings token]. simpl in *. by rewrite Hfile.
Qed.

(** X21. With a non-empty [GITHUB_TOKEN] the credentials file is not
    looked at, broken or not: the program prints the success line, builds
    the client for that very token and runs on it with the user name
    [argv[2]] and the output file [argv[3]]; the program exits as that run
    does. *)
Theorem main_with_environment_token (t : string) (file : credentials_file)
    (connect : string → Octokit) (csv : CsvWriter) (delay : Z → nat) (now : Date.t)
    (argv : list string) :
  t ≠ "" →
  let p := run (connect t) csv delay now (argv !! 2%nat) (argv !! 3%nat) in
  main (Some t) file connect csv delay now argv
  = mkProcess (Log "GitHub client initialized successfully" :: output p) (exit_code p).
Proof.
  intros Ht p. subst p. unfold main, initializeClient.
  destruct t as [|c s]; [done|]. done.
Qed.

End engine.

(** * The program on the sample inputs *)

(** The properties above that depend on the engine, applied to the sample
    inputs with [sample_unicode_toLowerCase] for the engine. *)

Lemma enrichment_failure_is_isolated_witness :
  enrichment_fails FETCH_COMMIT_COUNT sample_octokit "octocat" "gone"
    (mkError "Not Found" (Some 404))
  ∧ responsive sample_octokit
  ∧ settled (getUserRepos sample_unicode_toLowerCase sample_octokit "octocat") = Fulfilled sample_repos
  ∧ ∃ records,
      settled (processRepositories sample_unicode_toLowerCase sample_octokit sample_delay "octocat") = Fulfilled records
      ∧ length records = 3%nat
      ∧ records !! 1%nat = Some (repoData (sample_repo "gone") zero_record).
Proof.
  assert (enrichment_fails FETCH_COMMIT_COUNT sample_octokit "octocat" "gone"
            (mkError "Not Found" (Some 404))) as Hfails
    by (apply default_branch_fails; reflexivity).
  split; [exact Hfails|]. split; [exact sample_octokit_responsive|].
  split; [reflexivity|].
  destruct (proj2 (enrichment_failure_is_isolated sample_unicode_toLowerCase sample_octokit) sample_delay "octocat"
              sample_repos sample_octokit_responsive eq_refl)
    as (records & Hsettled & Hlength & Hzero).
  exists records. split; [exact Hsettled|]. split; [exact Hlength|].
  exact (Hzero 1%nat (sample_repo "gone") _ eq_refl Hfails).
Defined.

Lemma getUserRepos_reraises_witness :
  listing_fails sample_unicode_toLowerCase offline_octokit "octocat" network_error
  ∧ getUserRepos sample_unicode_toLowerCase offline_octokit "octocat"
    = mkIO [Log "Fetching repositories for user: octocat";
            Err "Error fetching repositories: getaddrinfo ENOTFOUND api.github.com"]
           (Rejected network_error)
  ∧ exit_code (run sample_unicode_toLowerCase offline_octokit sample_csv sample_delay sample_now (Some "octocat") None)
    = Some 1.
Proof.
  assert (listing_fails sample_unicode_toLowerCase offline_octokit "octocat" network_error) as Hfails
    by (left; reflexivity).
  split; [exact Hfails|]. split; [reflexivity|].
  exact (proj1 (proj2 (proj2 (proj2 (getUserRepos_reraises sample_unicode_toLowerCase offline_octokit "octocat"
                                        network_error Hfails)))
                  sample_csv sample_delay sample_now None ltac:(discriminate))).
Defined.

(** C8 as the specification states it fails: when the service cannot be
    reached, the error is printed without any classification hint. *)
Lemma getUserRepos_network_failure_without_hint :
  ¬ prints_hint (console (getUserRepos sample_unicode_toLowerCase offline_octokit "octocat")).
Proof.
  intros (hint & Hhint & Hin). vm_compute in Hin.
  apply elem_of_cons in Hhint as [->|Hhint];
    [|apply elem_of_cons in Hhint as [->|Hhint]; [|by apply elem_of_nil in Hhint]];
    line_not_printed_in Hin.
Qed.

Lemma getUserRepos_mode_selection_witness :
  users_getAuthenticated sample_octokit = Fulfilled (mkResponse (User.mk "OctoCat"))
  ∧ same_ignoring_case "OctoCat" "octocat"
  ∧ settled (getUserRepos sample_unicode_toLowerCase sample_octokit "octocat")
    = Fulfilled sample_repos
  ∧ ¬ same_ignoring_case "OctoCat" "torvalds"
  ∧ settled (getUserRepos sample_unicode_toLowerCase sample_octokit "torvalds")
    = Fulfilled [sample_repo "hello"]
  ∧ users_getAuthenticated kelvin_octokit = Fulfilled (mkResponse (User.mk "kelvin"))
  ∧ is_ascii_text kelvin_sign_elvin = false
  ∧ toLowerCase sample_unicode_toLowerCase "kelvin"
    = toLowerCase sample_unicode_toLowerCase kelvin_sign_elvin
  ∧ settled (getUserRepos sample_unicode_toLowerCase kelvin_octokit kelvin_sign_elvin)
    = Fulfilled sample_repos.
Proof.
  assert (Hsame : same_ignoring_case "OctoCat" "octocat").
  { cbv [same_ignoring_case same_letter]. repeat split; vm_compute; lia. }
  assert (Hdiffer : ¬ same_ignoring_case "OctoCat" "torvalds").
  { intros [Hletter _]. vm_compute in Hletter. lia. }
  split; [reflexivity|]. split; [exact Hsame|].
  split.
  { exact (proj1 (proj1 (proj2 (proj2 (proj2
             (getUserRepos_mode_selection sample_unicode_toLowerCase sample_octokit "octocat"
                (mkResponse (User.mk "OctoCat")) eq_refl))) eq_refl eq_refl) Hsame)). }
  split; [exact Hdiffer|].
  split.
  { exact (proj1 (proj2 (proj2 (proj2 (proj2
             (getUserRepos_mode_selection sample_unicode_toLowerCase sample_octokit "torvalds"
                (mkResponse (User.mk "OctoCat")) eq_refl))) eq_refl eq_refl) Hdiffer)). }
  split; [reflexivity|]. split; [reflexivity|]. split; [reflexivity|].
  exact (proj1 (proj1 (proj2
           (getUserRepos_mode_selection sample_unicode_toLowerCase kelvin_octokit
              kelvin_sign_elvin (mkResponse (User.mk "kelvin")) eq_refl)) eq_refl)).
Defined.

Lemma processRepositories_records_witness :
  responsive sample_octokit
  ∧ settled (getUserRepos sample_unicode_toLowerCase sample_octokit "octocat") = Fulfilled sample_repos
  ∧ ∃ records,
      settled (processRepositories sample_unicode_toLowerCase sample_octokit sample_delay "octocat") = Fulfilled records
      ∧ Report.name <$> records = ["hello"; "gone"; "empty"].
Proof.
  split; [exact sample_octokit_responsive|]. split; [reflexivity|].
  destruct (processRepositories_records sample_unicode_toLowerCase sample_octokit sample_delay "octocat" sample_repos
              sample_octokit_responsive eq_refl) as (records & Hsettled & _ & Hnames).
  exists records. split; [exact Hsettled | exact Hnames].
Defined.

Lemma processRepositories_listing_failure_witness :
  settled (getUserRepos sample_unicode_toLowerCase offline_octokit "octocat") = Rejected network_error
  ∧ processRepositories sample_unicode_toLowerCase offline_octokit sample_delay "octocat"
    = mkIO [Log "Fetching repositories for user: octocat";
            Err "Error fetching repositories: getaddrinfo ENOTFOUND api.github.com"]
           (Rejected network_error).
Proof.
  split; [reflexivity|].
  exact (processRepositories_listing_failure sample_unicode_toLowerCase offline_octokit sample_delay "octocat"
           network_error eq_refl).
Defined.

Lemma run_without_username_witness :
  truthy (Some "") = None
  ∧ run sample_unicode_toLowerCase offline_octokit sample_csv sample_delay sample_now (Some "") (Some "out.csv")
    = mkProcess [Err "Please provide a GitHub username";
                 Log "Usage: node index.js <username> [output-file.csv]"] (Some 1).
Proof.
  split; [reflexivity|].
  exact (run_without_username sample_unicode_toLowerCase offline_octokit sample_csv sample_delay sample_now (Some "")
           (Some "out.csv") eq_refl).
Defined.

Lemma run_succeeds_witness :
  "octocat" ≠ ""
  ∧ responsive sample_octokit
  ∧ users_getAuthenticated sample_octokit = Fulfilled (mkResponse (User.mk "OctoCat"))
  ∧ paginate_repos sample_octokit
      (listing_request (isOwnRepos sample_unicode_toLowerCase (mkResponse (User.mk "OctoCat")) "octocat") "octocat")
    = Fulfilled sample_repos
  ∧ csv_writable sample_csv
  ∧ exit_code (run sample_unicode_toLowerCase sample_octokit sample_csv sample_delay sample_now (Some "octocat") None)
    = Some 0.
Proof.
  split; [discriminate|]. split; [exact sample_octokit_responsive|].
  split; [reflexivity|]. split; [reflexivity|]. split; [intros ???; reflexivity|].
  exact (proj1 (run_succeeds sample_unicode_toLowerCase sample_octokit sample_csv sample_delay sample_now "octocat" None
                  (mkResponse (User.mk "OctoCat")) sample_repos ltac:(discriminate)
                  sample_octokit_responsive eq_refl eq_refl (λ _ _ _, eq_refl))).
Defined.

Lemma run_csv_failure_witness :
  "octocat" ≠ ""
  ∧ responsive sample_octokit
  ∧ users_getAuthenticated sample_octokit = Fulfilled (mkResponse (User.mk "OctoCat"))
  ∧ paginate_repos sample_octokit
      (listing_request (isOwnRepos sample_unicode_toLowerCase (mkResponse (User.mk "OctoCat")) "octocat") "octocat")
    = Fulfilled sample_repos
  ∧ (∀ path header records,
       writeRecords readonly_csv path header records
       = Rejected (mkError "EACCES: permission denied" None))
  ∧ exit_code (run sample_unicode_toLowerCase sample_octokit readonly_csv sample_delay sample_now (Some "octocat") None)
    = Some 1.
Proof.
  split; [discriminate|]. split; [exact sample_octokit_responsive|].
  split; [reflexivity|]. split; [reflexivity|]. split; [intros ???; reflexivity|].
  exact (proj1 (run_csv_failure sample_unicode_toLowerCase sample_octokit readonly_csv sample_delay sample_now "octocat"
                  None (mkResponse (User.mk "OctoCat")) sample_repos
                  (mkError "EACCES: permission denied" None) ltac:(discriminate)
                  sample_octokit_responsive eq_refl eq_refl (λ _ _ _, eq_refl))).
Defined.

Lemma main_without_credential_witness :
  truthy (Some "") = None
  ∧ truthy (token_from_file (BrokenFile (mkError "Unexpected end of JSON input" None))).2 = None
  ∧ main sample_unicode_toLowerCase (Some "") (BrokenFile (mkError "Unexpected end of JSON input" None))
      (λ _, sample_octokit) sample_csv sample_delay sample_now ["node"; "index.js"; "octocat"]
    = mkProcess
        (Warn "Could not read credentials file: Unexpected end of JSON input" :: token_help)
        (Some 1).
Proof.
  split; [reflexivity|]. split; [reflexivity|].
  exact (main_without_credential sample_unicode_toLowerCase (Some "")
           (BrokenFile (mkError "Unexpected end of JSON input" None))
           (λ _, sample_octokit) sample_csv sample_delay sample_now
           ["node"; "index.js"; "octocat"] eq_refl eq_refl).
Defined.

Lemma main_with_environment_token_witness :
  "ghp_token" ≠ ""
  ∧ main sample_unicode_toLowerCase (Some "ghp_token") (BrokenFile (mkError "Unexpected end of JSON input" None))
      (λ _, sample_octokit) sample_csv sample_delay sample_now ["node"; "index.js"]
    = mkProcess [Log "GitHub client initialized successfully";
                 Err "Please provide a GitHub username";
                 Log "Usage: node index.js <username> [output-file.csv]"] (Some 1).
Proof.
  split; [discriminate|].
  exact (main_with_environment_token sample_unicode_toLowerCase "ghp_token"
           (BrokenFile (mkError "Unexpected end of JSON input" None))
           (λ _, sample_octokit) sample_csv sample_delay sample_now ["node"; "index.js"]
           ltac:(discriminate)).
Defined.
